(** * Disclosure widgets of acore-ts: accordion group, tab group, dropdown

    A shallow embedding of the widget classes under [src/ui/components]
    (and of their second revisions [src/unnamed/part_004], the accordion,
    and [src/unnamed/part_005], the dropdown with keyboard support),
    followed by the properties of the specification checked against it.

    Conventions of the embedding.
    - A DOM element is identified by a natural number (its object
      identity); a boolean attribute or private flag of a family of
      elements is the finite set of the elements that carry it.
    - The numbers of [updatePosition] are IEEE 754 doubles, Rocq's
      primitive [float]s, in module [Placement64]; [+], [-], [/], [<]
      and [>] are the operations of JavaScript numbers, rounding and
      [NaN] included.  Module [Geometry] is the same method over exact
      rationals; only the position kept in the dropdown's state uses it.
    - A custom event dispatched with [bubbles: true] runs the listener of
      the enclosing group synchronously, inside the dispatching call; an
      exception raised by a listener ends the listener and is not seen by
      the dispatching call.
    - [element.focus()] makes the element [document.activeElement] when
      the element can take the focus, and does nothing otherwise. *)

From Stdlib Require Import ZArith QArith Lqa Lia Floats.
From stdpp Require Import base decidable option list gmap sets.

#[local] Set Warnings "-clear-no-such-hyp".

(** ** Part I: the embedding *)

(** *** Overlay placement over exact rationals

    [Dropdown.updatePosition] with the arithmetic of the rationals, for
    the position that the dropdown's state keeps.  What is proved of the
    method's numbers is proved of [Placement64] below. *)
Module Geometry.

Local Open Scope Q_scope.

(** What [getBoundingClientRect()] returns.  Width and height of a
    bounding rectangle are never negative, so [left] is [x], [top] is [y]
    and [bottom] is [y + height]. *)
Record DOMRect : Type := mkRect { x : Q; y : Q; width : Q; height : Q }.

Definition left (r : DOMRect) : Q := x r.
Definition top (r : DOMRect) : Q := y r.
Definition bottom (r : DOMRect) : Q := y r + height r.

(** The three inline styles the method writes, as numbers of pixels. *)
Record Style : Type := mkStyle { style_top : Q; style_left : Q; style_maxWidth : Q }.

(** JavaScript's [a > b] and [a < b] on numbers. *)
Definition gt (a b : Q) : bool := if Qlt_le_dec b a then true else false.
Definition lt (a b : Q) : bool := if Qlt_le_dec a b then true else false.

Definition updatePosition (triggerRect contentRect : DOMRect)
    (viewportWidth viewportHeight : Q) : Style :=
  (* Calculate initial position (centered below trigger) *)
  let left0 := left triggerRect + (width triggerRect - width contentRect) / 2 in
  let top0 := bottom triggerRect + 8 in
  (* Handle horizontal overflow *)
  let left1 :=
    if gt (left0 + width contentRect) viewportWidth
    then viewportWidth - width contentRect - 8
    else left0 in
  let left2 := if lt left1 8 then 8 else left1 in
  (* Handle vertical overflow *)
  let top1 :=
    if gt (top0 + height contentRect) viewportHeight then
      let topPosition := top triggerRect - height contentRect - 8 in
      if gt topPosition 0 then topPosition
      else viewportHeight - height contentRect - 8
    else top0 in
  {| style_top := top1; style_left := left2;
     style_maxWidth := viewportWidth - 16 |}.

End Geometry.

(** *** Overlay placement: [Dropdown.updatePosition]

    [src/ui/components/Dropdown.ts] lines 143-174 and
    [src/unnamed/part_005] lines 136-167 hold the same text.  The numbers
    are doubles, as in the source. *)
Module Placement64.

Local Open Scope float_scope.

(** What [getBoundingClientRect()] returns.  Width and height of a
    bounding rectangle are never negative, so [left] is [x], [top] is [y]
    and [bottom] is [y + height]. *)
Record DOMRect : Type := mkRect { x : float; y : float; width : float; height : float }.

Definition left (r : DOMRect) : float := x r.
Definition top (r : DOMRect) : float := y r.
Definition bottom (r : DOMRect) : float := y r + height r.

(** The three inline styles the method writes, as numbers of pixels. *)
Record Style : Type :=
  mkStyle { style_top : float; style_left : float; style_maxWidth : float }.

(** JavaScript's [a > b] and [a < b] on numbers: false when either side
    is [NaN]. *)
Definition gt (a b : float) : bool := b <? a.
Definition lt (a b : float) : bool := a <? b.

Definition updatePosition (triggerRect contentRect : DOMRect)
    (viewportWidth viewportHeight : float) : Style :=
  (* Calculate initial position (centered below trigger) *)
  let left0 := left triggerRect + (width triggerRect - width contentRect) / 2 in
  let top0 := bottom triggerRect + 8 in
  (* Handle horizontal overflow *)
  let left1 :=
    if gt (left0 + width contentRect) viewportWidth
    then viewportWidth - width contentRect - 8
    else left0 in
  let left2 := if lt left1 8 then 8 else left1 in
  (* Handle vertical overflow *)
  let top1 :=
    if gt (top0 + height contentRect) viewportHeight then
      let topPosition := top triggerRect - height contentRect - 8 in
      if gt topPosition 0 then topPosition
      else viewportHeight - height contentRect - 8
    else top0 in
  {| style_top := top1; style_left := left2;
     style_maxWidth := viewportWidth - 16 |}.

(** The specification's wording of the same computation (section 4.2,
    steps 1 to 4, [margin = 8]): both overflow tests are taken against the
    viewport edge less the margin. *)
Definition spec_left (anchor content : DOMRect) (viewportWidth : float) : float :=
  let margin := 8 in
  let l := x anchor + (width anchor - width content) / 2 in
  let l := if gt (l + width content) (viewportWidth - margin)
           then viewportWidth - width content - margin else l in
  if lt l margin then margin else l.

Definition spec_top (anchor content : DOMRect) (viewportHeight : float) : float :=
  let margin := 8 in
  let t := bottom anchor + margin in
  if gt (t + height content) (viewportHeight - margin) then
    let aboveTop := top anchor - height content - margin in
    if gt aboveTop 0 then aboveTop
    else viewportHeight - height content - margin
  else t.

End Placement64.

(** *** Accordions inside an accordion group

    [src/ui/components/AccordionGroup.ts] with the two classes of member
    that the sources hold: [src/ui/components/Accordion.ts], the file that
    [AccordionGroup.ts] imports, with [toggle], [open] and [close], and
    [src/unnamed/part_004], with [toggleAccordion] and [collapse].  Both
    flip [isExpanded] and dispatch ["accordion-expanded"] in the same way.
    The group's listener calls [collapse()] on the recorded member: the
    method of part_004, and a [TypeError] on a member of [Accordion.ts],
    which has no such method.  The state is that of a connected group
    whose accordions are all its descendants, all of one class; heights
    and ARIA attributes are left out. *)
Module AccordionGroup.

Definition Accordion : Type := nat.

(** The class of the group's members. *)
Inductive Revision : Type :=
  | AccordionTs                         (* src/ui/components/Accordion.ts *)
  | Part004.                            (* src/unnamed/part_004 *)

(** What one member tells another: the ["accordion-expanded"] event an
    accordion dispatches, the [collapse()] call the group makes, and the
    same call on a member that has no [collapse] method, which ends the
    listener with a [TypeError]. *)
Inductive Notification : Type :=
  | Expanded (a : Accordion)
  | CollapseCall (a : Accordion)
  | CollapseMissing (a : Accordion).

Record Group : Type := mkGroup {
  isExpanded : gset Accordion;          (* the accordions whose flag is true *)
  currentOpenAccordion : option Accordion;
  log : list Notification               (* notifications so far, oldest first *)
}.

(** The group after its constructor, its accordions after theirs. *)
Definition initial : Group :=
  {| isExpanded := ∅; currentOpenAccordion := None; log := [] |}.

Definition expanded (a : Accordion) (g : Group) : bool :=
  bool_decide (a ∈ isExpanded g).

Definition set_isExpanded (a : Accordion) (b : bool) (g : Group) : Group :=
  {| isExpanded := if b then isExpanded g ∪ {[a]} else isExpanded g ∖ {[a]};
     currentOpenAccordion := currentOpenAccordion g;
     log := log g |}.

Definition set_currentOpenAccordion (c : option Accordion) (g : Group) : Group :=
  {| isExpanded := isExpanded g; currentOpenAccordion := c; log := log g |}.

Definition notify (n : Notification) (g : Group) : Group :=
  {| isExpanded := isExpanded g;
     currentOpenAccordion := currentOpenAccordion g;
     log := log g ++ [n] |}.

(** [Accordion.toggleAccordion] (part_004 lines 94-112) and
    [Accordion.toggle] (Accordion.ts lines 59-74).  [listener] is what
    [dispatchEvent] runs for ["accordion-expanded"]. *)
Definition toggleAccordion (listener : Accordion -> Group -> Group)
    (a : Accordion) (g : Group) : Group :=
  let g := set_isExpanded a (negb (expanded a g)) g in
  if expanded a g then listener a (notify (Expanded a) g) (* notifyExpanded *)
  else g.

(** [Accordion.collapse] (part_004 lines 124-129).  It runs
    [toggleAccordion] on an expanded accordion only, where the closing
    branch is taken and nothing is dispatched: the listener given here is
    never run (lemma [closing_runs_no_listener]). *)
Definition collapse (a : Accordion) (g : Group) : Group :=
  if expanded a g then toggleAccordion (fun _ g' => g') a g else g.

(** The listener of [AccordionGroup.setupAccordionListeners]
    (AccordionGroup.ts lines 50-60), in a group whose members are of class
    [members].  On a member of [Accordion.ts] the call of line 55 raises a
    [TypeError]; the listener ends there and line 58 is not reached. *)
Definition onAccordionExpanded (members : Revision)
    (newAccordion : Accordion) (g : Group) : Group :=
  match currentOpenAccordion g with
  | Some current =>
      if bool_decide (current ≠ newAccordion) then
        match members with
        | Part004 =>
            set_currentOpenAccordion (Some newAccordion)
              (collapse current (notify (CollapseCall current) g))
        | AccordionTs => notify (CollapseMissing current) g
        end
      else set_currentOpenAccordion (Some newAccordion) g
  | None => set_currentOpenAccordion (Some newAccordion) g
  end.

(** [handleTriggerClick]: a click on the trigger of a member, in either
    class (Accordion.ts lines 149-152, part_004 lines 144-147). *)
Definition handleTriggerClick (members : Revision) (a : Accordion) (g : Group) : Group :=
  toggleAccordion (onAccordionExpanded members) a g.

(** The public methods of a member of [Accordion.ts] (lines 45-74). *)
Definition toggle (a : Accordion) (g : Group) : Group :=
  toggleAccordion (onAccordionExpanded AccordionTs) a g.

Definition open (a : Accordion) (g : Group) : Group :=
  if negb (expanded a g) then toggle a g else g.

Definition close (a : Accordion) (g : Group) : Group :=
  if expanded a g then toggle a g else g.

(** What can be done to a group of [Accordion.ts] members. *)
Inductive Op : Type :=
  | Open (a : Accordion)
  | Close (a : Accordion)
  | Toggle (a : Accordion)
  | Click (a : Accordion).

Definition step (g : Group) (o : Op) : Group :=
  match o with
  | Open a => open a g
  | Close a => close a g
  | Toggle a => toggle a g
  | Click a => handleTriggerClick AccordionTs a g
  end.

(** Each operation runs to completion before the next starts. *)
Definition run (ops : list Op) (g : Group) : Group := foldl step g ops.

(** What can be done to a group of part_004 members. *)
Inductive Op004 : Type :=
  | Click004 (a : Accordion)
  | Collapse (a : Accordion).

Definition step004 (g : Group) (o : Op004) : Group :=
  match o with
  | Click004 a => handleTriggerClick Part004 a g
  | Collapse a => collapse a g
  end.

Definition run004 (ops : list Op004) (g : Group) : Group := foldl step004 g ops.

(** At most one member reports that it is open. *)
Definition at_most_one_open (g : Group) : Prop :=
  forall a b : Accordion, a ∈ isExpanded g -> b ∈ isExpanded g -> a = b.

(** Every expanded accordion is the one the group has on record. *)
Definition record_covers (g : Group) : Prop :=
  forall a : Accordion, a ∈ isExpanded g -> currentOpenAccordion g = Some a.

End AccordionGroup.

(** *** Tab panels inside a tab group

    [src/ui/components/TabGroup.ts] and [src/ui/components/Tab.ts].  A tab
    is active when it carries the [active] attribute.  The panels are
    instances of [Tab] (the browser has upgraded them) and the group's
    listeners are registered; [TabLifecycle] below follows a group that is
    connected before its panels are upgraded.  The attributes of the
    triggers and the ARIA attributes of buttons are left out. *)
Module TabGroup.

Definition Tab : Type := nat.

(** The JavaScript numbers that index arithmetic produces here: the
    integers and [NaN] (fractions and infinities are left out). *)
Inductive number : Type :=
  | Int (z : Z)
  | NaN.

(** [a % b]: the remainder has the sign of the dividend, and [a % 0] is
    [NaN]. *)
Definition js_rem (a b : Z) : number :=
  if (b =? 0)%Z then NaN else Int (Z.rem a b).

(** [a < b] and [a >= b]; a comparison with [NaN] is false. *)
Definition js_lt (a : number) (b : Z) : bool :=
  match a with Int z => (z <? b)%Z | NaN => false end.
Definition js_ge (a : number) (b : Z) : bool :=
  match a with Int z => (b <=? z)%Z | NaN => false end.

(** [array[index]]: [undefined] ([None]) outside the array and at [NaN]. *)
Definition js_index {A : Type} (l : list A) (index : number) : option A :=
  match index with
  | Int z => if (z <? 0)%Z then None else l !! Z.to_nat z
  | NaN => None
  end.

(** [array.indexOf(x)]: the first position of [x], or -1. *)
Fixpoint indexOf_from (l : list Tab) (t : Tab) (i : Z) : Z :=
  match l with
  | [] => (-1)%Z
  | t' :: l' => if bool_decide (t' = t) then i else indexOf_from l' t (i + 1)%Z
  end.
Definition indexOf (l : list Tab) (t : Tab) : Z := indexOf_from l t 0.

Record Group : Type := mkGroup {
  tabs : list Tab;
  _activeTab : option Tab;
  active : gset Tab                     (* the tabs with the [active] attribute *)
}.

Definition set_tabs (l : list Tab) (g : Group) : Group :=
  {| tabs := l; _activeTab := _activeTab g; active := active g |}.
Definition set_activeTab (t : option Tab) (g : Group) : Group :=
  {| tabs := tabs g; _activeTab := t; active := active g |}.
Definition set_active (s : gset Tab) (g : Group) : Group :=
  {| tabs := tabs g; _activeTab := _activeTab g; active := s |}.

(** How a method ends: it returns a value, or a [TypeError] leaves it.
    Either way the group is in the state the method left it in. *)
Inductive result (A : Type) : Type :=
  | Returns (v : A) (g : Group)
  | Throws (g : Group).
Arguments Returns {A} v g.
Arguments Throws {A} g.

Definition state_of {A : Type} (r : result A) : Group :=
  match r with Returns _ g => g | Throws g => g end.

(** [Tab.isActive], [Tab.deactivate] (Tab.ts lines 37-39, 52-56). *)
Definition isActive (t : Tab) (g : Group) : bool := bool_decide (t ∈ active g).

Definition deactivate (t : Tab) (g : Group) : Group :=
  if isActive t g then set_active (active g ∖ {[t]}) g else g.

(** The ["tab-activated"] listener of [TabGroup.setupTabListeners]
    (TabGroup.ts lines 156-165); [updateTabStates] touches triggers only. *)
Definition onTabActivated (newTab : Tab) (g : Group) : Group :=
  let g :=
    match _activeTab g with
    | Some current =>
        if bool_decide (current ≠ newTab) then deactivate current g else g
    | None => g
    end in
  set_activeTab (Some newTab) g.

(** [Tab.activate] (Tab.ts lines 45-50) of a tab inside the connected
    group: [notifyActivated] runs the group's listener. *)
Definition activate (t : Tab) (g : Group) : Group :=
  if negb (isActive t g)
  then onTabActivated t (set_active (active g ∪ {[t]}) g)
  else g.

(** [TabGroup.activateTab] (TabGroup.ts lines 179-194), given
    [this.tabs[index]], which is [undefined] when the index is no
    position of the array. *)
Definition activateTab (tab : option Tab) (g : Group) : result () :=
  (* this._activeTab?.deactivate() *)
  let g := match _activeTab g with Some t => deactivate t g | None => g end in
  (* this.tabs.forEach((t) => t.removeAttribute("active")) *)
  let g := set_active (active g ∖ list_to_set (tabs g)) g in
  match tab with
  | None => Throws g                    (* undefined.setAttribute *)
  | Some t =>
      let g := set_active (active g ∪ {[t]}) g in
      let g := activate t g in
      Returns () (set_activeTab (Some t) g)
  end.

(** [TabGroup.selectTab] (TabGroup.ts lines 49-54). *)
Definition selectTab (index : number) (g : Group) : result bool :=
  if js_lt index 0 || js_ge index (Z.of_nat (length (tabs g)))
  then Returns false g
  else match activateTab (js_index (tabs g) index) g with
       | Returns _ g' => Returns true g'
       | Throws g' => Throws g'
       end.

(** The getters [activeTab], [activeTabIndex] and [tabCount] (lines 56-66). *)
Definition activeTab (g : Group) : option Tab := _activeTab g.

Definition activeTabIndex (g : Group) : Z :=
  match _activeTab g with
  | Some t => indexOf (tabs g) t
  | None => (-1)%Z
  end.

Definition tabCount (g : Group) : Z := Z.of_nat (length (tabs g)).

(** [TabGroup.nextTab] and [TabGroup.previousTab] (lines 72-85). *)
Definition nextTab (g : Group) : result bool :=
  let currentIndex := activeTabIndex g in
  selectTab (js_rem (currentIndex + 1) (tabCount g)) g.

Definition previousTab (g : Group) : result bool :=
  let currentIndex := activeTabIndex g in
  let prevIndex :=
    if (currentIndex - 1 <? 0)%Z then (tabCount g - 1)%Z
    else (currentIndex - 1)%Z in
  selectTab (Int prevIndex) g.

(** The group after its constructor; [markup] holds the tabs that carry
    [active] in the document's markup. *)
Definition constructed (markup : gset Tab) : Group :=
  {| tabs := []; _activeTab := None; active := markup |}.

(** [TabGroup.initializeTabs] (lines 129-144); [found] is what
    [querySelectorAll("ac-tab")] returns.  [connectedCallback] runs it
    between [render] and [setupTabListeners], which change nothing of the
    state kept here. *)
Definition initializeTabs (found : list Tab) (g : Group) : result () :=
  let g := set_tabs found g in
  if (0 <? Z.of_nat (length (tabs g)))%Z
  then match selectTab (Int 0) g with
       | Returns _ g' => Returns () g'
       | Throws g' => Throws g'
       end
  else Returns () g.

Definition connectedCallback (found : list Tab) (g : Group) : result () :=
  initializeTabs found g.

Inductive Op : Type :=
  | SelectTab (index : number)
  | NextTab
  | PreviousTab
  | Activate (t : Tab)
  | Deactivate (t : Tab).

(** One call made from outside the group; a click on the [i]-th trigger
    is [SelectTab (Int i)] (the ["tab-trigger-click"] listener, lines
    147-154).  An exception that leaves a call is lost in the event loop
    and the state stays as the call left it. *)
Definition step (g : Group) (o : Op) : Group :=
  match o with
  | SelectTab index => state_of (selectTab index g)
  | NextTab => state_of (nextTab g)
  | PreviousTab => state_of (previousTab g)
  | Activate t => activate t g
  | Deactivate t => deactivate t g
  end.

Definition run (ops : list Op) (g : Group) : Group := foldl step g ops.

(** At most one tab of the group reports that it is active. *)
Definition at_most_one_active (g : Group) : Prop :=
  forall t u : Tab,
    t ∈ tabs g -> u ∈ tabs g ->
    isActive t g = true -> isActive u g = true -> t = u.

(** Every active tab of the group is the one the group has on record. *)
Definition record_covers (g : Group) : Prop :=
  forall t : Tab, t ∈ tabs g -> t ∈ active g -> _activeTab g = Some t.

End TabGroup.

(** *** The dropdown

    [Dropdown] is the revision with keyboard support,
    [src/unnamed/part_005]; [DropdownBasic] below is
    [src/ui/components/Dropdown.ts], which has neither key handlers nor
    focus moves. *)
Module Dropdown.

(** The elements whose [focus()] the dropdown calls, and where
    [document.activeElement] can be as far as the dropdown can tell:
    [this.trigger], the [i]-th element with [role="menuitem"] of the
    content, or something else.  [this.trigger] is the
    [<div class="ac-dropdown-trigger">] that [render] puts around the
    trigger slot (part_005 lines 60-62, 73, 85-88): it gets ARIA
    attributes and no [tabindex], so it never takes the focus. *)
Inductive Element : Type :=
  | Trigger
  | MenuItem (i : nat)
  | Elsewhere.

Inductive Key : Type :=
  | Enter | Space | ArrowDown | ArrowUp | Escape | Tab | OtherKey.

(** What the methods read and do not write. *)
Record Env : Type := mkEnv {
  triggerRect : Geometry.DOMRect;
  contentRect : Geometry.DOMRect;
  innerWidth : Q;
  innerHeight : Q;
  menuitems : nat;                      (* how many [role="menuitem"] elements *)
  focusable : nat -> bool               (* whether the [i]-th of them takes the focus *)
}.

Record State : Type := mkState {
  hidden : bool;                        (* content has the class [hidden] *)
  ariaExpanded : bool;                  (* the trigger's [aria-expanded] *)
  style : option Geometry.Style;        (* the content's inline position *)
  activeElement : Element;
  frameRequests : nat;                  (* queued [requestAnimationFrame] callbacks *)
  focusCalls : list Element             (* the [focus()] calls made, oldest first *)
}.

Definition set_hidden (b : bool) (s : State) : State :=
  {| hidden := b; ariaExpanded := ariaExpanded s; style := style s;
     activeElement := activeElement s; frameRequests := frameRequests s;
     focusCalls := focusCalls s |}.
Definition set_ariaExpanded (b : bool) (s : State) : State :=
  {| hidden := hidden s; ariaExpanded := b; style := style s;
     activeElement := activeElement s; frameRequests := frameRequests s;
     focusCalls := focusCalls s |}.
Definition set_style (p : Geometry.Style) (s : State) : State :=
  {| hidden := hidden s; ariaExpanded := ariaExpanded s; style := Some p;
     activeElement := activeElement s; frameRequests := frameRequests s;
     focusCalls := focusCalls s |}.
Definition set_activeElement (e : Element) (s : State) : State :=
  {| hidden := hidden s; ariaExpanded := ariaExpanded s; style := style s;
     activeElement := e; frameRequests := frameRequests s;
     focusCalls := focusCalls s |}.
Definition set_frameRequests (n : nat) (s : State) : State :=
  {| hidden := hidden s; ariaExpanded := ariaExpanded s; style := style s;
     activeElement := activeElement s; frameRequests := n;
     focusCalls := focusCalls s |}.
Definition set_focusCalls (l : list Element) (s : State) : State :=
  {| hidden := hidden s; ariaExpanded := ariaExpanded s; style := style s;
     activeElement := activeElement s; frameRequests := frameRequests s;
     focusCalls := l |}.

(** Whether an element takes the focus. *)
Definition takesFocus (env : Env) (e : Element) : bool :=
  match e with
  | Trigger => false
  | MenuItem i => (i <? menuitems env)%nat && focusable env i
  | Elsewhere => false
  end.

(** [e.focus()]. *)
Definition focus (env : Env) (e : Element) (s : State) : State :=
  let s := set_focusCalls (focusCalls s ++ [e]) s in
  if takesFocus env e then set_activeElement e s else s.

Definition updatePosition (env : Env) (s : State) : State :=
  set_style (Geometry.updatePosition (triggerRect env) (contentRect env)
               (innerWidth env) (innerHeight env)) s.

(** [focusFirstMenuItem] (part_005 lines 246-251). *)
Definition focusFirstMenuItem (env : Env) (s : State) : State :=
  if (0 <? menuitems env)%nat then focus env (MenuItem 0) s else s.

(** [showMenu] and [hideMenu] (part_005 lines 120-130). *)
Definition showMenu (env : Env) (s : State) : State :=
  let s := set_hidden false s in
  let s := updatePosition env s in
  set_frameRequests (S (frameRequests s)) s.

Definition hideMenu (env : Env) (s : State) : State :=
  let s := set_hidden true s in
  focus env Trigger s.

(** The next animation frame runs the queued [focusFirstMenuItem]
    callbacks, each once. *)
Definition animationFrame (env : Env) (s : State) : State :=
  Nat.iter (frameRequests s) (focusFirstMenuItem env) (set_frameRequests 0 s).

(** [toggleMenu] (part_005 lines 112-118). *)
Definition toggleMenu (env : Env) (s : State) : State :=
  let isVisible := negb (hidden s) in
  let s := if isVisible then hideMenu env s else showMenu env s in
  set_ariaExpanded (negb isVisible) s.

Definition handleTriggerClick (env : Env) (s : State) : State :=
  toggleMenu env s.

(** [handleTriggerKeydown] (part_005 lines 203-216). *)
Definition handleTriggerKeydown (env : Env) (k : Key) (s : State) : State :=
  match k with
  | Enter | Space | ArrowDown => focusFirstMenuItem env (showMenu env s)
  | Escape => hideMenu env s
  | _ => s
  end.

(** [items.indexOf(document.activeElement)]. *)
Definition currentIndex (env : Env) (s : State) : Z :=
  match activeElement s with
  | MenuItem i => if (i <? menuitems env)%nat then Z.of_nat i else (-1)%Z
  | _ => (-1)%Z
  end.

(** [handleContentKeydown] (part_005 lines 218-244). *)
Definition handleContentKeydown (env : Env) (k : Key) (s : State) : State :=
  let currentIndex := currentIndex env s in
  match k with
  | ArrowDown =>
      if (currentIndex <? Z.of_nat (menuitems env) - 1)%Z
      then focus env (MenuItem (Z.to_nat (currentIndex + 1))) s
      else s
  | ArrowUp =>
      if (0 <? currentIndex)%Z
      then focus env (MenuItem (Z.to_nat (currentIndex - 1))) s
      else s
  | Escape => focus env Trigger (hideMenu env s)
  | Tab => hideMenu env s
  | _ => s
  end.

(** [handleDocumentClick] (part_005 lines 258-263); [inside] is
    [e.composedPath().includes(this)]. *)
Definition handleDocumentClick (env : Env) (inside : bool) (s : State) : State :=
  if negb inside then hideMenu env s else s.

End Dropdown.

Module DropdownBasic.

Import Dropdown.

(** [showMenu] and [hideMenu] (Dropdown.ts lines 130-137). *)
Definition showMenu (env : Env) (s : State) : State :=
  updatePosition env (set_hidden false s).

Definition hideMenu (s : State) : State := set_hidden true s.

Definition toggleMenu (env : Env) (s : State) : State :=
  let isVisible := negb (hidden s) in
  if isVisible then hideMenu s else showMenu env s.

(** [handleDocumentClick] (Dropdown.ts lines 211-216). *)
Definition handleDocumentClick (inside : bool) (s : State) : State :=
  if negb inside then hideMenu s else s.

End DropdownBasic.

(** *** One accordion, with what it shows

    [src/ui/components/Accordion.ts]: the inline height of the content and
    the ARIA attributes next to [isExpanded].  [scrollHeight] is read from
    the layout at each call and is an argument here. *)
Module AccordionElement.

(** [content.style.height]: not set (the stylesheet's [height: 0]
    applies), ["<n>px"], ["0"] or ["auto"]. *)
Inductive Height : Type :=
  | Unset
  | Px (n : N)
  | Zero
  | Auto.

Record State : Type := mkState {
  hasTrigger : bool;                    (* [querySelector] found the trigger *)
  isExpanded : bool;
  height : Height;
  triggerAriaExpanded : option bool;    (* the trigger's [aria-expanded], if set *)
  contentAriaHidden : option bool;      (* the content's [aria-hidden], if set *)
  expandedEvents : nat                  (* ["accordion-expanded"] events dispatched *)
}.

(** The element after its constructor and [render]; the trigger is there
    or not as the shadow tree has it. *)
Definition constructed (trigger : bool) : State :=
  {| hasTrigger := trigger; isExpanded := false; height := Unset;
     triggerAriaExpanded := None; contentAriaHidden := None;
     expandedEvents := 0 |}.

(** [initializeElements] (Accordion.ts lines 100-121), past its two
    checks. *)
Definition initializeElements (s : State) : State :=
  {| hasTrigger := hasTrigger s; isExpanded := isExpanded s; height := height s;
     triggerAriaExpanded := if hasTrigger s then Some false else triggerAriaExpanded s;
     contentAriaHidden := Some true;
     expandedEvents := expandedEvents s |}.

(** [toggle] (Accordion.ts lines 59-74). *)
Definition toggle (scrollHeight : N) (s : State) : State :=
  let expanded := negb (isExpanded s) in
  if expanded then
    {| hasTrigger := hasTrigger s; isExpanded := true;
       height := Px scrollHeight;
       triggerAriaExpanded := if hasTrigger s then Some true else triggerAriaExpanded s;
       contentAriaHidden := Some false;
       expandedEvents := S (expandedEvents s) |}
  else
    {| hasTrigger := hasTrigger s; isExpanded := false;
       height := Zero;
       triggerAriaExpanded := if hasTrigger s then Some false else triggerAriaExpanded s;
       contentAriaHidden := Some true;
       expandedEvents := expandedEvents s |}.

(** [open] and [close] (Accordion.ts lines 45-57). *)
Definition open (scrollHeight : N) (s : State) : State :=
  if negb (isExpanded s) then toggle scrollHeight s else s.

Definition close (scrollHeight : N) (s : State) : State :=
  if isExpanded s then toggle scrollHeight s else s.

(** [handleTransitionEnd] (Accordion.ts lines 155-157). *)
Definition handleTransitionEnd (s : State) : State :=
  if isExpanded s then
    {| hasTrigger := hasTrigger s; isExpanded := isExpanded s; height := Auto;
       triggerAriaExpanded := triggerAriaExpanded s;
       contentAriaHidden := contentAriaHidden s;
       expandedEvents := expandedEvents s |}
  else s.

Inductive Op : Type :=
  | Open (scrollHeight : N)
  | Close (scrollHeight : N)
  | Toggle (scrollHeight : N)           (* also a click on the trigger *)
  | TransitionEnd.

Definition step (s : State) (o : Op) : State :=
  match o with
  | Open h => open h s
  | Close h => close h s
  | Toggle h => toggle h s
  | TransitionEnd => handleTransitionEnd s
  end.

Definition run (ops : list Op) (s : State) : State := foldl step s ops.

(** [connectedCallback]: [render], [initializeElements], listeners. *)
Definition connected (trigger : bool) : State :=
  initializeElements (constructed trigger).



End AccordionElement.

(** *** The tab group with its triggers

    The part of [TabGroup.ts] that [TabGroup] above leaves out:
    [updateTabStates], the ["tab-trigger-click"] listener, and
    [TabTrigger.select] and [deselect] ([src/ui/components/TabTrigger.ts]
    lines 43-51).  The [i]-th trigger is the [i]-th element that
    [querySelectorAll("ac-tab-trigger")] returns. *)
Module TabTriggers.

Import TabGroup.

Record Strip : Type := mkStrip {
  group : Group;
  triggers : nat;                       (* how many triggers the group holds *)
  selected : gset nat                   (* the triggers with the [selected] attribute *)
}.

Definition set_group (g : Group) (st : Strip) : Strip :=
  {| group := g; triggers := triggers st; selected := selected st |}.

(** [updateTabStates] (TabGroup.ts lines 168-177): trigger [i] is selected
    when [i === activeIndex] and deselected otherwise. *)
Definition updateTabStates (activeIndex : Z) (st : Strip) : Strip :=
  {| group := group st; triggers := triggers st;
     selected :=
       list_to_set
         (filter (fun i => Z.of_nat i = activeIndex) (seq 0 (triggers st))) |}.

(** The ["tab-activated"] listener, whole (TabGroup.ts lines 156-165). *)
Definition onTabActivated (newTab : Tab) (st : Strip) : Strip :=
  let st := set_group (TabGroup.onTabActivated newTab (group st)) st in
  updateTabStates (indexOf (tabs (group st)) newTab) st.

(** [Tab.activate] (Tab.ts lines 45-50) with that listener. *)
Definition activate (t : Tab) (st : Strip) : Strip :=
  if negb (isActive t (group st))
  then onTabActivated t (set_group (set_active (active (group st) ∪ {[t]}) (group st)) st)
  else st.

Definition deactivate (t : Tab) (st : Strip) : Strip :=
  set_group (TabGroup.deactivate t (group st)) st.

(** [activateTab] (TabGroup.ts lines 179-194) with that [Tab.activate];
    [tabList.querySelectorAll("button")] looks for buttons inside the
    shadow tree's tab list, which holds a slot only. *)
Definition activateTab (tab : option Tab) (st : Strip) : result () * Strip :=
  let g := group st in
  let g := match _activeTab g with Some t => TabGroup.deactivate t g | None => g end in
  let g := set_active (active g ∖ list_to_set (tabs g)) g in
  match tab with
  | None => (Throws g, set_group g st)
  | Some t =>
      let g := set_active (active g ∪ {[t]}) g in
      let st := activate t (set_group g st) in
      let g := set_activeTab (Some t) (group st) in
      (Returns () g, set_group g st)
  end.

Definition selectTab (index : number) (st : Strip) : result bool * Strip :=
  if js_lt index 0 || js_ge index (Z.of_nat (length (tabs (group st))))
  then (Returns false (group st), st)
  else match activateTab (js_index (tabs (group st)) index) st with
       | (Returns _ g', st') => (Returns true g', st')
       | (Throws g', st') => (Throws g', st')
       end.

(** The ["tab-trigger-click"] listener (TabGroup.ts lines 147-154), for
    a click on the [i]-th trigger: [triggers.indexOf(trigger)] is [i]. *)
Definition onTabTriggerClick (i : nat) (st : Strip) : Strip :=
  if (0 <=? Z.of_nat i)%Z then snd (selectTab (Int (Z.of_nat i)) st) else st.

End TabTriggers.

(** *** The dropdown as a machine of events

    The listeners that [attachEventListeners] registers (part_005 lines
    173-180), one event at a time.  The geometry and the menu items are
    read anew at each event. *)
Module DropdownMachine.

Import Dropdown.

Inductive Event : Type :=
  | TriggerClick
  | TriggerKeydown (k : Key)
  | ContentKeydown (k : Key)
  | DocumentClick (inside : bool)
  | ScrollOrResize
  | AnimationFrame.

Definition step (s : State) (ev : Env * Event) : State :=
  let (env, e) := ev in
  match e with
  | TriggerClick => handleTriggerClick env s
  | TriggerKeydown k => handleTriggerKeydown env k s
  | ContentKeydown k => handleContentKeydown env k s
  | DocumentClick inside => handleDocumentClick env inside s
  | ScrollOrResize => updatePosition env s
  | AnimationFrame => animationFrame env s
  end.

Definition run (evs : list (Env * Event)) (s : State) : State := foldl step s evs.

(** The dropdown after [initializeElements] (part_005 lines 68-110): the
    content carries [hidden], [aria-expanded] is ["false"], and the focus
    is wherever it was. *)
Definition initial (focused : Element) : State :=
  {| hidden := true; ariaExpanded := false; style := None;
     activeElement := focused; frameRequests := 0; focusCalls := [] |}.

(** The content is visible only if it has been positioned, at least 8
    pixels from the viewport's left edge. *)
Definition positioned (s : State) : Prop :=
  hidden s = false ->
  exists p, style s = Some p /\ (8 <= Geometry.style_left p)%Q.

End DropdownMachine.

(** *** The tab group and the upgrade of its panels

    [TabGroup] above is the group among panels that are instances of
    [Tab].  An [ac-tab] element that the browser has not upgraded yet is a
    plain [HTMLElement]: it has attributes and no [activate] or
    [deactivate] method, and calling one raises a [TypeError].  This
    module follows [connectedCallback] (TabGroup.ts lines 38-42) past that
    error: [setupTabListeners] runs only if [initializeTabs] returns. *)
Module TabLifecycle.

Import TabGroup.

Record Page : Type := mkPage {
  group : Group;
  upgraded : gset Tab;                  (* the panels that are instances of [Tab] *)
  listening : bool                      (* [setupTabListeners] has run *)
}.

Definition set_group (g : Group) (p : Page) : Page :=
  {| group := g; upgraded := upgraded p; listening := listening p |}.
Definition set_listening (b : bool) (p : Page) : Page :=
  {| group := group p; upgraded := upgraded p; listening := b |}.

(** How a method ends. *)
Inductive outcome (A : Type) : Type :=
  | Returned (v : A)
  | Thrown.
Arguments Returned {A} v.
Arguments Thrown {A}.

Definition isUpgraded (t : Tab) (p : Page) : bool := bool_decide (t ∈ upgraded p).

(** The browser upgrades a panel: the constructor and [connectedCallback]
    of [Tab] touch no attribute. *)
Definition upgrade (t : Tab) (p : Page) : Page :=
  {| group := group p; upgraded := upgraded p ∪ {[t]}; listening := listening p |}.

(** [tab.activate()] called by the page (Tab.ts lines 45-50): the event
    reaches the group's listener if the group has one. *)
Definition activate (t : Tab) (p : Page) : outcome () * Page :=
  if isUpgraded t p then
    if negb (isActive t (group p)) then
      let g := set_active (active (group p) ∪ {[t]}) (group p) in
      (Returned (), set_group (if listening p then onTabActivated t g else g) p)
    else (Returned (), p)
  else (Thrown, p).

(** [TabGroup.activateTab] (TabGroup.ts lines 179-194). *)
Definition activateTab (tab : option Tab) (p : Page) : outcome () * Page :=
  (* this._activeTab?.deactivate() *)
  let deactivated :=
    match _activeTab (group p) with
    | Some a =>
        if isUpgraded a p then Some (deactivate a (group p)) else None
    | None => Some (group p)
    end in
  match deactivated with
  | None => (Thrown, p)
  | Some g =>
      (* this.tabs.forEach((t) => t.removeAttribute("active")) *)
      let g := set_active (active g ∖ list_to_set (tabs g)) g in
      match tab with
      | None => (Thrown, set_group g p)                (* undefined.setAttribute *)
      | Some t =>
          let g := set_active (active g ∪ {[t]}) g in
          (* tab.activate() *)
          match activate t (set_group g p) with
          | (Returned _, p) =>
              (Returned (), set_group (set_activeTab (Some t) (group p)) p)
          | (Thrown, p) => (Thrown, p)
          end
      end
  end.

(** [TabGroup.selectTab] (TabGroup.ts lines 49-54). *)
Definition selectTab (index : number) (p : Page) : outcome bool * Page :=
  if js_lt index 0 || js_ge index (Z.of_nat (length (tabs (group p))))
  then (Returned false, p)
  else match activateTab (js_index (tabs (group p)) index) p with
       | (Returned _, p') => (Returned true, p')
       | (Thrown, p') => (Thrown, p')
       end.

(** [TabGroup.initializeTabs] (lines 129-144). *)
Definition initializeTabs (found : list Tab) (p : Page) : outcome () * Page :=
  let p := set_group (set_tabs found (group p)) p in
  if (0 <? Z.of_nat (length (tabs (group p))))%Z
  then match selectTab (Int 0) p with
       | (Returned _, p') => (Returned (), p')
       | (Thrown, p') => (Thrown, p')
       end
  else (Returned (), p).

(** [TabGroup.connectedCallback] (lines 38-42): [render],
    [initializeTabs], [setupTabListeners]. *)
Definition connectedCallback (found : list Tab) (p : Page) : outcome () * Page :=
  match initializeTabs found p with
  | (Returned _, p') => (Returned (), set_listening true p')
  | (Thrown, p') => (Thrown, p')
  end.

(** The page when the group's constructor has run: [markup] holds the
    panels that carry [active] in the markup, [ready] the panels that are
    upgraded already. *)
Definition constructed (markup ready : gset Tab) : Page :=
  {| group := TabGroup.constructed markup; upgraded := ready; listening := false |}.

End TabLifecycle.

(** ** Part II: properties *)

Section Placement.
Import Geometry.
Local Open Scope Q_scope.

Lemma gt_true (a b : Q) : gt a b = true <-> b < a.
Proof. unfold gt. destruct (Qlt_le_dec b a); split; intros; try done; lra. Qed.

Lemma gt_false (a b : Q) : gt a b = false <-> a <= b.
Proof. unfold gt. destruct (Qlt_le_dec b a); split; intros; try done; lra. Qed.

Lemma lt_true (a b : Q) : lt a b = true <-> a < b.
Proof. unfold lt. destruct (Qlt_le_dec a b); split; intros; try done; lra. Qed.

Lemma lt_false (a b : Q) : lt a b = false <-> b <= a.
Proof. unfold lt. destruct (Qlt_le_dec a b); split; intros; try done; lra. Qed.

End Placement.

Section Placement64Facts.
Import Placement64.
Local Open Scope float_scope.

(** The order of the doubles is antisymmetric where it is defined. *)
Lemma SFcompare_antisym (a b : spec_float) :
  SFcompare b a = option_map CompOpp (SFcompare a b).
Proof.
  destruct a as [sa|sa| |sa ma ea], b as [sb|sb| |sb mb eb]; cbn;
    try destruct sa; try destruct sb; cbn; try reflexivity.
  all: rewrite (Z.compare_antisym ea eb); destruct (ea ?= eb)%Z; cbn;
    try reflexivity.
  all: pose proof (Pos.compare_cont_antisym ma mb Eq) as H; cbn in H;
    rewrite <- H; destruct (Pos.compare_cont Eq ma mb); reflexivity.
Qed.

(** Of two numbers, neither of them [NaN], one is less than the other or
    the other is at most the one. *)
Lemma not_lt_ge (a b : float) :
  (a <? b) = false -> is_nan a = false -> is_nan b = false -> (b <=? a) = true.
Proof.
  rewrite FloatAxioms.ltb_spec, FloatAxioms.leb_spec. unfold is_nan.
  rewrite !FloatAxioms.eqb_spec.
  unfold SFltb, SFleb, SFeqb. rewrite (SFcompare_antisym (Prim2SF a) (Prim2SF b)).
  destruct (SFcompare (Prim2SF a) (Prim2SF b)) as [[]|] eqn:E; cbn; try done.
  intros _ Ha Hb.
  destruct (Prim2SF a) as [sa|sa| |sa ma ea], (Prim2SF b) as [sb|sb| |sb mb eb];
    cbn in *; try done;
    repeat match goal with s : bool |- _ => destruct s end; cbn in *; done.
Qed.

(** C2, as the specification words it, fails on the code.  Anchor
    [{x:900, y:100, w:100, h:30}], content [100 x 50], viewport
    [1004 x 768] (all exact in doubles): centred, the content spans
    900..1000, inside the viewport but closer than 8 pixels to its right
    edge.  The method tests [left + width > viewportWidth] and keeps
    [left = 900]; the specification's test against
    [viewportWidth - margin] gives 896. *)
Lemma horizontal_overflow_test_ignores_margin :
  let anchor := mkRect 900 100 100 30 in
  let content := mkRect 0 0 100 50 in
  style_left (updatePosition anchor content 1004 768) = 900 /\
  spec_left anchor content 1004 = 896 /\
  style_left (updatePosition anchor content 1004 768)
    <> spec_left anchor content 1004.
Proof.
  cbv zeta. split; [reflexivity | split; [reflexivity |]].
  intros H. apply (f_equal (fun v => v =? 900)) in H.
  vm_compute in H. discriminate H.
Qed.

(** C2, amended: in the arithmetic of doubles, the returned [left] is
    the centred position [anchor.x + (anchor.width - content.width) / 2],
    replaced by [viewport.width - content.width - 8] when the test
    [left + content.width > viewport.width] holds (against the viewport's
    edge itself), and the result is replaced by 8 when the test
    [left < 8] holds of it. *)
Theorem updatePosition_left (triggerRect contentRect : DOMRect) (vw vh : float) :
  let centred := x triggerRect + (width triggerRect - width contentRect) / 2 in
  let shifted := vw - width contentRect - 8 in
  let l := style_left (updatePosition triggerRect contentRect vw vh) in
  (gt (centred + width contentRect) vw = false /\ lt centred 8 = false /\ l = centred) \/
  (gt (centred + width contentRect) vw = false /\ lt centred 8 = true /\ l = 8) \/
  (gt (centred + width contentRect) vw = true /\ lt shifted 8 = false /\ l = shifted) \/
  (gt (centred + width contentRect) vw = true /\ lt shifted 8 = true /\ l = 8).
Proof.
  unfold updatePosition, left; cbn [style_left].
  destruct (gt (x triggerRect + (width triggerRect - width contentRect) / 2
                + width contentRect) vw) eqn:Eover.
  - destruct (lt (vw - width contentRect - 8) 8) eqn:Eclamp.
    + right; right; right. repeat split.
    + right; right; left. repeat split.
  - destruct (lt (x triggerRect + (width triggerRect - width contentRect) / 2) 8)
      eqn:Eclamp.
    + right; left. repeat split.
    + left. repeat split.
Qed.

(** C3, as the specification words it, fails on the code.  Anchor
    [{x:0, y:70, w:100, h:30}], content [100 x 100], viewport
    [1024 x 210] (all exact in doubles): below the anchor the content
    spans 108..208, inside the viewport but closer than 8 pixels to its
    bottom edge.  The method tests [top + height > viewportHeight] and
    keeps [top = 108]; by the specification's test the candidate
    overflows, nothing fits above ([aboveTop = -38]), and [top] is
    [210 - 100 - 8 = 102]. *)
Lemma vertical_overflow_test_ignores_margin :
  let anchor := mkRect 0 70 100 30 in
  let content := mkRect 0 0 100 100 in
  style_top (updatePosition anchor content 1024 210) = 108 /\
  spec_top anchor content 210 = 102 /\
  style_top (updatePosition anchor content 1024 210) <> spec_top anchor content 210.
Proof.
  cbv zeta. split; [reflexivity | split; [reflexivity |]].
  intros H. apply (f_equal (fun v => v =? 108)) in H.
  vm_compute in H. discriminate H.
Qed.

(** C3, amended: in the arithmetic of doubles, the candidate below the
    anchor, [anchor.bottom + 8], is kept unless the test
    [top + content.height > viewport.height] holds (against the viewport's
    edge itself); when it holds, the method uses
    [aboveTop = anchor.top - content.height - 8] if the test
    [aboveTop > 0] holds and [viewport.height - content.height - 8]
    otherwise.  For viewport 1024 x 768, anchor
    [{x:500, y:700, w:100, h:30}] and content 200 x 100 the returned top
    is 592. *)
Theorem updatePosition_top (triggerRect contentRect : DOMRect) (vw vh : float) :
  let below := y triggerRect + height triggerRect + 8 in
  let aboveTop := y triggerRect - height contentRect - 8 in
  let t := style_top (updatePosition triggerRect contentRect vw vh) in
  ((gt (below + height contentRect) vh = false /\ t = below) \/
   (gt (below + height contentRect) vh = true /\ gt aboveTop 0 = true /\
    t = aboveTop) \/
   (gt (below + height contentRect) vh = true /\ gt aboveTop 0 = false /\
    t = vh - height contentRect - 8)) /\
  style_top (updatePosition (mkRect 500 700 100 30) (mkRect 0 0 200 100)
               1024 768) = 592.
Proof.
  split; [| reflexivity].
  unfold updatePosition, top, bottom; cbn [style_top].
  destruct (gt (y triggerRect + height triggerRect + 8 + height contentRect) vh)
    eqn:Eover.
  - destruct (gt (y triggerRect - height contentRect - 8) 0) eqn:Eabove.
    + right; left. repeat split.
    + right; right. repeat split.
  - left. repeat split.
Qed.

(** C4, as stated, fails on the code when the anchor lies below the
    viewport (the page is scrolled so that the trigger is under the fold;
    the scroll listener runs the method all the same).  Viewport
    [1024 x 768], anchor [{x:500, y:1000, w:100, h:30}], content
    [200 x 100] (all exact in doubles): the candidate below overflows,
    [aboveTop = 892 > 0] is taken, and the content ends at [992 > 768]
    although its height, 100, fits the viewport. *)
Lemma flipped_content_can_end_below_viewport :
  let anchor := mkRect 500 1000 100 30 in
  let content := mkRect 0 0 200 100 in
  let s := updatePosition anchor content 1024 768 in
  style_top s = 892 /\
  ~ ((8 <=? style_left s) = true /\
     style_maxWidth s = 1024 - 2 * 8 /\
     ((style_top s + height content <=? 768) = true \/
      (768 <? height content) = true)).
Proof.
  cbv zeta. split; [reflexivity |].
  intros (_ & _ & [H | H]); vm_compute in H; discriminate H.
Qed.

(** C4, amended: for every anchor, content and viewport, in the
    arithmetic of doubles, the test [left < 8] is false of the returned
    [left] (so [8 <= left] whenever [left] is a number), and the returned
    [maxWidth] is [viewport.width - 16].  When the candidate below the
    anchor is kept, the test [top + content.height > viewport.height] is
    false of the returned [top] (so the sum, as the method computes it,
    does not exceed [viewport.height] when both are numbers); otherwise
    the returned [top] is [anchor.top - content.height - 8], whatever the
    viewport, or [viewport.height - content.height - 8]. *)
Theorem updatePosition_bounds (triggerRect contentRect : DOMRect) (vw vh : float) :
  let s := updatePosition triggerRect contentRect vw vh in
  let below := y triggerRect + height triggerRect + 8 in
  lt (style_left s) 8 = false /\
  (is_nan (style_left s) = false -> (8 <=? style_left s) = true) /\
  style_maxWidth s = vw - 2 * 8 /\
  ((style_top s = below /\
    gt (style_top s + height contentRect) vh = false /\
    (is_nan (style_top s + height contentRect) = false -> is_nan vh = false ->
     (style_top s + height contentRect <=? vh) = true)) \/
   (gt (below + height contentRect) vh = true /\
    style_top s = y triggerRect - height contentRect - 8) \/
   (gt (below + height contentRect) vh = true /\
    style_top s = vh - height contentRect - 8)).
Proof.
  unfold updatePosition, left, top, bottom;
    cbn [style_left style_top style_maxWidth].
  split; [| split; [| split; [reflexivity |]]].
  - match goal with |- lt (if lt ?l 8 then _ else _) 8 = false =>
      destruct (lt l 8) eqn:Eclamp; [reflexivity | exact Eclamp]
    end.
  - match goal with |- is_nan (if lt ?l 8 then _ else _) = false -> _ =>
      destruct (lt l 8) eqn:Eclamp; intros Hnan;
        [reflexivity | by apply not_lt_ge]
    end.
  - destruct (gt (y triggerRect + height triggerRect + 8 + height contentRect) vh)
      eqn:Eover.
    + destruct (gt (y triggerRect - height contentRect - 8) 0) eqn:Eabove.
      * right; left. by split.
      * right; right. by split.
    + left. split; [reflexivity | split; [exact Eover |]].
      intros Hsum Hvh. by apply not_lt_ge.
Qed.

End Placement64Facts.

Section Accordions.
Import AccordionGroup.

Lemma expanded_true (a : Accordion) (g : Group) :
  expanded a g = true <-> a ∈ isExpanded g.
Proof. unfold expanded. apply bool_decide_eq_true. Qed.

Lemma expanded_false (a : Accordion) (g : Group) :
  expanded a g = false <-> a ∉ isExpanded g.
Proof. unfold expanded. apply bool_decide_eq_false. Qed.

Lemma closing_runs_no_listener (f : Accordion -> Group -> Group)
    (a : Accordion) (g : Group) :
  expanded a g = true -> toggleAccordion f a g = set_isExpanded a false g.
Proof.
  intros Ha. unfold toggleAccordion. rewrite Ha. cbn [negb].
  assert (expanded a (set_isExpanded a false g) = false) as ->; [| done].
  apply expanded_false. cbn. set_solver.
Qed.

Lemma opening_runs_listener (f : Accordion -> Group -> Group)
    (a : Accordion) (g : Group) :
  expanded a g = false ->
  toggleAccordion f a g = f a (notify (Expanded a) (set_isExpanded a true g)).
Proof.
  intros Ha. unfold toggleAccordion. rewrite Ha. cbn [negb].
  assert (expanded a (set_isExpanded a true g) = true) as ->; [| done].
  apply expanded_true. cbn. set_solver.
Qed.

Lemma collapse_expanded (a : Accordion) (g : Group) :
  expanded a g = true -> collapse a g = set_isExpanded a false g.
Proof.
  intros Ha. unfold collapse. rewrite Ha. by apply closing_runs_no_listener.
Qed.

Lemma toggle_expanded (a : Accordion) (g : Group) :
  expanded a g = true -> toggle a g = set_isExpanded a false g.
Proof. apply closing_runs_no_listener. Qed.

Lemma elem_of_collapse (a b : Accordion) (g : Group) :
  b ∈ isExpanded (collapse a g) <-> b ∈ isExpanded g /\ b ≠ a.
Proof.
  destruct (expanded a g) eqn:Ha.
  - rewrite collapse_expanded by done. cbn. set_solver.
  - unfold collapse. rewrite Ha. apply expanded_false in Ha. set_solver.
Qed.

Lemma current_collapse (a : Accordion) (g : Group) :
  currentOpenAccordion (collapse a g) = currentOpenAccordion g.
Proof.
  destruct (expanded a g) eqn:Ha.
  - by rewrite collapse_expanded.
  - unfold collapse. by rewrite Ha.
Qed.

Lemma log_collapse (a : Accordion) (g : Group) : log (collapse a g) = log g.
Proof.
  destruct (expanded a g) eqn:Ha.
  - by rewrite collapse_expanded.
  - unfold collapse. by rewrite Ha.
Qed.

(** The listener changes no flag in a group of [Accordion.ts] members,
    and only that of the recorded member in a group of part_004 members. *)
Lemma elem_of_listener (members : Revision) (a b : Accordion) (g : Group) :
  b ∈ isExpanded (onAccordionExpanded members a g) <->
  b ∈ isExpanded g /\
  (members = Part004 -> currentOpenAccordion g = Some b -> b = a).
Proof.
  unfold onAccordionExpanded.
  destruct (currentOpenAccordion g) as [current|] eqn:Hcur.
  - case_bool_decide as Hne.
    + destruct members; cbn [isExpanded set_currentOpenAccordion notify].
      * split; [intros Hb; split; [done | discriminate] | tauto].
      * rewrite elem_of_collapse. cbn. split.
        -- intros [Hb Hbc]. split; [done |]. intros _ [= ->]. done.
        -- intros [Hb Himp]. split; [done |]. intros ->. apply Hne.
           by apply Himp.
    + cbn. split; [intros Hb; split; [done |] | tauto].
      intros _ [= ->]. done.
  - cbn. split; [intros Hb; split; [done | discriminate] | tauto].
Qed.

Lemma record_covers_close (a : Accordion) (g : Group) :
  record_covers g -> record_covers (set_isExpanded a false g).
Proof. intros Hg b Hb. cbn in *. apply Hg. set_solver. Qed.

(** In a group of part_004 members an opening click keeps the record
    right. *)
Lemma record_covers_expand (a : Accordion) (g : Group) :
  record_covers g ->
  record_covers (onAccordionExpanded Part004 a
                   (notify (Expanded a) (set_isExpanded a true g))).
Proof.
  intros Hg b Hb.
  apply elem_of_listener in Hb as [Hb Himp]. cbn in Hb, Himp.
  assert (currentOpenAccordion
            (onAccordionExpanded Part004 a
               (notify (Expanded a) (set_isExpanded a true g))) = Some a) as ->.
  { unfold onAccordionExpanded. cbn [currentOpenAccordion notify set_isExpanded].
    destruct (currentOpenAccordion g); [| done].
    by case_bool_decide. }
  f_equal. destruct (decide (b = a)) as [|Hba]; [done |].
  assert (b ∈ isExpanded g) as Hin by set_solver.
  symmetry. apply Himp; [done | by apply Hg].
Qed.

Lemma record_covers_step004 (g : Group) (o : Op004) :
  record_covers g -> record_covers (step004 g o).
Proof.
  intros Hg. destruct o as [a|a]; cbn [step004].
  - unfold handleTriggerClick. destruct (expanded a g) eqn:Ha.
    + rewrite closing_runs_no_listener by done. by apply record_covers_close.
    + rewrite opening_runs_listener by done. by apply record_covers_expand.
  - destruct (expanded a g) eqn:Ha.
    + rewrite collapse_expanded by done. by apply record_covers_close.
    + unfold collapse. by rewrite Ha.
Qed.

Lemma record_covers_run004 (ops : list Op004) (g : Group) :
  record_covers g -> record_covers (run004 ops g).
Proof.
  revert g. induction ops as [|o ops IH]; intros g Hg; [done|].
  cbn. apply IH. by apply record_covers_step004.
Qed.

Lemma record_covers_exclusive (g : Group) :
  record_covers g -> at_most_one_open g.
Proof.
  intros Hg a b Ha Hb. apply Hg in Ha, Hb. congruence.
Qed.

Lemma record_covers_initial : record_covers initial.
Proof. intros a Ha. by apply not_elem_of_empty in Ha. Qed.

Example scenario_B :
  let g := run004 [Click004 1; Click004 2] initial in
  isExpanded g = {[2]} /\ currentOpenAccordion g = Some 2 /\
  log g = [Expanded 1; Expanded 2; CollapseCall 1].
Proof. vm_compute. repeat split. Qed.

End Accordions.

Section Tabs.
Import TabGroup.

Lemma isActive_true (t : Tab) (g : Group) : isActive t g = true <-> t ∈ active g.
Proof. unfold isActive. apply bool_decide_eq_true. Qed.

Lemma isActive_false (t : Tab) (g : Group) : isActive t g = false <-> t ∉ active g.
Proof. unfold isActive. apply bool_decide_eq_false. Qed.

Lemma elem_of_deactivate (t u : Tab) (g : Group) :
  u ∈ active (deactivate t g) <-> u ∈ active g /\ u ≠ t.
Proof.
  unfold deactivate. destruct (isActive t g) eqn:Ht; cbn.
  - set_solver.
  - apply isActive_false in Ht. set_solver.
Qed.

Lemma tabs_deactivate (t : Tab) (g : Group) : tabs (deactivate t g) = tabs g.
Proof. unfold deactivate. by destruct (isActive t g). Qed.

Lemma activeTab_deactivate (t : Tab) (g : Group) :
  _activeTab (deactivate t g) = _activeTab g.
Proof. unfold deactivate. by destruct (isActive t g). Qed.

(** The state [activateTab] leaves when it is given a tab. *)
Lemma activateTab_some (t : Tab) (g : Group) :
  exists g',
    activateTab (Some t) g = Returns () g' /\
    tabs g' = tabs g /\ _activeTab g' = Some t /\ t ∈ active g' /\
    forall u, u ∈ active g' -> u = t \/ (u ∈ active g /\ u ∉ tabs g).
Proof.
  unfold activateTab. eexists. split; [reflexivity|].
  set (g1 := match _activeTab g with Some c => deactivate c g | None => g end).
  assert (tabs g1 = tabs g) as Htabs.
  { subst g1. destruct (_activeTab g); [apply tabs_deactivate | done]. }
  assert (forall u, u ∈ active g1 -> u ∈ active g) as Hsub.
  { subst g1. intros u. destruct (_activeTab g); [| done].
    rewrite elem_of_deactivate. tauto. }
  unfold activate.
  match goal with |- context [isActive t ?h] =>
    assert (isActive t h = true) as -> by (apply isActive_true; cbn; set_solver)
  end.
  cbn. rewrite Htabs. repeat split; [set_solver |].
  intros u Hu. destruct (decide (u = t)) as [|Hne]; [by left | right].
  assert (u ∈ active g1 /\ u ∉ tabs g) as [Hu1 Hu2] by set_solver.
  split; [by apply Hsub | done].
Qed.

Lemma activateTab_none (g : Group) :
  exists g',
    activateTab None g = Throws g' /\
    tabs g' = tabs g /\ _activeTab g' = _activeTab g /\
    forall u, u ∈ active g' -> u ∈ active g /\ u ∉ tabs g.
Proof.
  unfold activateTab. eexists. split; [reflexivity|].
  set (g1 := match _activeTab g with Some c => deactivate c g | None => g end).
  assert (tabs g1 = tabs g) as Htabs.
  { subst g1. destruct (_activeTab g); [apply tabs_deactivate | done]. }
  assert (_activeTab g1 = _activeTab g) as Hrec.
  { subst g1. destruct (_activeTab g) eqn:E; [| done].
    by rewrite activeTab_deactivate. }
  assert (forall u, u ∈ active g1 -> u ∈ active g) as Hsub.
  { subst g1. intros u. destruct (_activeTab g); [| done].
    rewrite elem_of_deactivate. tauto. }
  cbn. rewrite Htabs. repeat split; [done | |]; set_solver.
Qed.

Lemma record_covers_activateTab (tab : option Tab) (g : Group) :
  record_covers (state_of (activateTab tab g)).
Proof.
  destruct tab as [t|].
  - destruct (activateTab_some t g) as (g' & -> & Htabs & Hrec & _ & Hact).
    cbn. intros u Hu Hua. rewrite Htabs in Hu.
    destruct (Hact u Hua) as [-> | [_ Hout]]; done.
  - destruct (activateTab_none g) as (g' & -> & Htabs & _ & Hact).
    cbn. intros u Hu Hua. rewrite Htabs in Hu.
    destruct (Hact u Hua) as [_ Hout]. done.
Qed.

Lemma record_covers_selectTab (index : number) (g : Group) :
  record_covers g -> record_covers (state_of (selectTab index g)).
Proof.
  intros Hg. unfold selectTab.
  destruct (js_lt index 0 || js_ge index (Z.of_nat (length (tabs g)))); [done|].
  pose proof (record_covers_activateTab (js_index (tabs g) index) g) as H.
  by destruct (activateTab (js_index (tabs g) index) g).
Qed.

Lemma record_covers_deactivate (t : Tab) (g : Group) :
  record_covers g -> record_covers (deactivate t g).
Proof.
  intros Hg u. rewrite tabs_deactivate, activeTab_deactivate, elem_of_deactivate.
  intros Hu [Hua _]. by apply Hg.
Qed.

Lemma record_covers_activate (t : Tab) (g : Group) :
  record_covers g -> record_covers (activate t g).
Proof.
  intros Hg. unfold activate. destruct (isActive t g) eqn:Ht; cbn [negb]; [done|].
  unfold onTabActivated. cbn [_activeTab set_active].
  intros u. cbn [tabs set_activeTab _activeTab active].
  destruct (_activeTab g) as [current|] eqn:Hcur.
  - case_bool_decide as Hne.
    + rewrite tabs_deactivate, elem_of_deactivate. cbn.
      intros Hu [Hua Huc]. f_equal.
      destruct (decide (u = t)) as [|Hut]; [done | exfalso].
      assert (u ∈ active g) as Hin by set_solver.
      apply Hg in Hin; [congruence | done].
    + cbn. intros Hu Hua. f_equal.
      destruct (decide (u = t)) as [|Hut]; [done | exfalso].
      assert (u ∈ active g) as Hin by set_solver.
      apply Hg in Hin; [congruence | done].
  - cbn. intros Hu Hua. f_equal.
    destruct (decide (u = t)) as [|Hut]; [done | exfalso].
    assert (u ∈ active g) as Hin by set_solver.
    apply Hg in Hin; [congruence | done].
Qed.

Lemma record_covers_tab_step (g : Group) (o : Op) :
  record_covers g -> record_covers (step g o).
Proof.
  intros Hg. destruct o; cbn [step].
  - by apply record_covers_selectTab.
  - by apply record_covers_selectTab.
  - by apply record_covers_selectTab.
  - by apply record_covers_activate.
  - by apply record_covers_deactivate.
Qed.

Lemma record_covers_tab_run (ops : list Op) (g : Group) :
  record_covers g -> record_covers (run ops g).
Proof.
  revert g. induction ops as [|o ops IH]; intros g Hg; [done|].
  cbn. apply IH. by apply record_covers_tab_step.
Qed.

Lemma record_covers_tab_exclusive (g : Group) :
  record_covers g -> at_most_one_active g.
Proof.
  intros Hg t u Ht Hu Hta Hua.
  apply isActive_true in Hta, Hua.
  apply Hg in Hta, Hua; [congruence | done | done].
Qed.

Lemma indexOf_from_lookup (l : list Tab) (t : Tab) (n : nat) (i : Z) :
  NoDup l -> l !! n = Some t -> indexOf_from l t i = (i + Z.of_nat n)%Z.
Proof.
  revert n i. induction l as [|t' l IH]; intros n i Hnd Hn; [done|].
  apply NoDup_cons in Hnd as [Hnotin Hnd]. cbn [indexOf_from].
  destruct n as [|n]; cbn in Hn.
  - injection Hn as ->. rewrite bool_decide_eq_true_2 by done. lia.
  - rewrite bool_decide_eq_false_2.
    + rewrite (IH n) by done. lia.
    + intros ->. apply Hnotin. by eapply list_elem_of_lookup_2.
Qed.

Lemma selectTab_in_range (n : nat) (t : Tab) (g : Group) :
  tabs g !! n = Some t ->
  exists g',
    selectTab (Int (Z.of_nat n)) g = Returns true g' /\
    tabs g' = tabs g /\ _activeTab g' = Some t /\ t ∈ active g' /\
    forall u, u ∈ active g' -> u = t \/ (u ∈ active g /\ u ∉ tabs g).
Proof.
  intros Hn. pose proof (lookup_lt_Some _ _ _ Hn) as Hlt.
  unfold selectTab. cbn [js_lt js_ge js_index].
  assert ((Z.of_nat n <? 0)%Z = false) as -> by (apply Z.ltb_ge; lia).
  assert ((Z.of_nat (length (tabs g)) <=? Z.of_nat n)%Z = false) as ->
    by (apply Z.leb_gt; lia).
  cbn [orb]. rewrite Nat2Z.id, Hn.
  destruct (activateTab_some t g) as (g' & -> & H). by exists g'.
Qed.

Lemma selectTab_out_of_range (z : Z) (g : Group) :
  (z < 0 \/ tabCount g <= z)%Z -> selectTab (Int z) g = Returns false g.
Proof.
  intros Hz. unfold selectTab, tabCount in *. cbn [js_lt js_ge].
  destruct (z <? 0)%Z eqn:E1; [done|].
  destruct (Z.of_nat (length (tabs g)) <=? z)%Z eqn:E2; [done | lia].
Qed.

(** X23.  [previousTab()] on a group without panels returns [false]
    and leaves the group as it is (where [nextTab()] throws). *)
Lemma previousTab_without_tabs (g : Group) :
  tabs g = [] -> previousTab g = Returns false g.
Proof.
  intros Hempty. unfold previousTab.
  assert (activeTabIndex g = (-1)%Z) as ->.
  { unfold activeTabIndex. rewrite Hempty. by destruct (_activeTab g). }
  unfold tabCount. rewrite Hempty.
  change (selectTab (Int (-1)) g = Returns false g).
  apply selectTab_out_of_range. lia.
Qed.

Example scenario_C :
  let g := state_of (connectedCallback [10; 11; 12] (constructed ∅)) in
  let g := state_of (selectTab (Int 2) g) in
  activeTabIndex g = 2%Z /\
  exists g', nextTab g = Returns true g' /\ activeTabIndex g' = 0%Z.
Proof. vm_compute. split; [done | eexists; split; reflexivity]. Qed.

End Tabs.

Section Dropdowns.
Import Dropdown.

(** [focus()] on the trigger wrapper is recorded and moves nothing. *)
Lemma focus_trigger (env : Env) (s : State) :
  focus env Trigger s = set_focusCalls (focusCalls s ++ [Trigger]) s.
Proof. reflexivity. Qed.

Lemma hideMenu_hidden (env : Env) (s : State) : hidden (hideMenu env s) = true.
Proof. reflexivity. Qed.

Lemma hideMenu_focus (env : Env) (s : State) :
  activeElement (hideMenu env s) = activeElement s.
Proof. reflexivity. Qed.

(** The fields that [focus()] leaves alone. *)
Lemma focus_frame (env : Env) (e : Element) (s : State) :
  hidden (focus env e s) = hidden s /\
  style (focus env e s) = style s /\
  ariaExpanded (focus env e s) = ariaExpanded s /\
  frameRequests (focus env e s) = frameRequests s.
Proof. unfold focus. by destruct (takesFocus env e). Qed.

(** Where the focus is after [focus()]. *)
Lemma focus_activeElement (env : Env) (e : Element) (s : State) :
  activeElement (focus env e s) = if takesFocus env e then e else activeElement s.
Proof. unfold focus. by destruct (takesFocus env e). Qed.

(** In the revision without key handlers a click outside hides the
    content and leaves the focus alone. *)
Lemma basic_outside_click (s : State) :
  hidden (DropdownBasic.handleDocumentClick false s) = true /\
  activeElement (DropdownBasic.handleDocumentClick false s) = activeElement s.
Proof. split; reflexivity. Qed.

End Dropdowns.

(** ** The properties of the specification *)

Section Claims.

(** C1, at an input that breaks it: a group of two [Accordion.ts]
    members, [open()] on the first and then on the second.  The listener
    finds the first on record and calls [collapse()] on it; [Accordion.ts]
    has no such method, the call raises a [TypeError], the listener ends,
    and both members are expanded, the first still on record. *)
Theorem exclusivity_broken_by_missing_collapse :
  let g := AccordionGroup.run [AccordionGroup.Open 1; AccordionGroup.Open 2]
             AccordionGroup.initial in
  AccordionGroup.isExpanded g = {[1; 2]} /\
  AccordionGroup.currentOpenAccordion g = Some 1 /\
  AccordionGroup.log g
    = [AccordionGroup.Expanded 1; AccordionGroup.Expanded 2;
       AccordionGroup.CollapseMissing 1] /\
  ~ AccordionGroup.at_most_one_open g.
Proof.
  cbv zeta. split; [| split; [| split]]; try (vm_compute; reflexivity).
  intros H. specialize (H 1 2). assert (1 = 2) as Hbad; [| discriminate Hbad].
  apply H; vm_compute; set_solver.
Qed.

(** The tab group loses exclusivity in a like way when it is connected
    before its panels are upgraded: [initializeTabs] ends in a
    [TypeError] at [tab.activate()], with the first panel's [active]
    attribute set, the listeners are never registered, and a later
    [activate()] on another panel deactivates nothing. *)
Lemma late_panels_break_exclusivity :
  let p0 := TabLifecycle.constructed ∅ ∅ in
  let p1 := snd (TabLifecycle.connectedCallback [10; 11] p0) in
  let p2 := TabLifecycle.upgrade 11 (TabLifecycle.upgrade 10 p1) in
  let p3 := snd (TabLifecycle.activate 11 p2) in
  fst (TabLifecycle.connectedCallback [10; 11] p0) = TabLifecycle.Thrown /\
  TabLifecycle.listening p3 = false /\
  TabGroup.active (TabLifecycle.group p3) = {[10; 11]} /\
  ~ TabGroup.at_most_one_active (TabLifecycle.group p3).
Proof.
  cbv zeta. split; [| split; [| split]]; try (vm_compute; reflexivity).
  intros H. specialize (H 10 11). assert (10 = 11) as Hbad; [| discriminate Hbad].
  apply H; vm_compute; set_solver.
Qed.

(** C5.  Clamp versus wrap-around.  In the dropdown, [ArrowDown] with
    the focus on the last menu item and [ArrowUp] with the focus on the
    first change nothing.  In a tab group, [nextTab()] at the last index
    returns [true] and selects index 0, and [previousTab()] at index 0
    returns [true] and selects index [count - 1]. *)
Theorem clamp_versus_wraparound :
  (forall (env : Dropdown.Env) (s : Dropdown.State) (last : nat),
     Dropdown.menuitems env = S last ->
     Dropdown.activeElement s = Dropdown.MenuItem last ->
     Dropdown.handleContentKeydown env Dropdown.ArrowDown s = s) /\
  (forall (env : Dropdown.Env) (s : Dropdown.State),
     Dropdown.activeElement s = Dropdown.MenuItem 0 ->
     Dropdown.handleContentKeydown env Dropdown.ArrowUp s = s) /\
  (forall g : TabGroup.Group,
     (0 < TabGroup.tabCount g)%Z ->
     TabGroup.activeTabIndex g = (TabGroup.tabCount g - 1)%Z ->
     exists g',
       TabGroup.nextTab g = TabGroup.Returns true g' /\
       TabGroup.activeTabIndex g' = 0%Z) /\
  (forall g : TabGroup.Group,
     NoDup (TabGroup.tabs g) ->
     (0 < TabGroup.tabCount g)%Z ->
     TabGroup.activeTabIndex g = 0%Z ->
     exists g',
       TabGroup.previousTab g = TabGroup.Returns true g' /\
       TabGroup.activeTabIndex g' = (TabGroup.tabCount g - 1)%Z).
Proof.
  repeat split.
  - intros env s last Hn Hlast.
    unfold Dropdown.handleContentKeydown, Dropdown.currentIndex.
    rewrite Hlast, Hn.
    assert ((last <? S last)%nat = true) as -> by (apply Nat.ltb_lt; lia).
    assert ((Z.of_nat last <? Z.of_nat (S last) - 1)%Z = false) as ->
      by (apply Z.ltb_ge; lia).
    done.
  - intros env s Hfirst.
    unfold Dropdown.handleContentKeydown, Dropdown.currentIndex.
    rewrite Hfirst. by destruct (0 <? Dropdown.menuitems env)%nat.
  - intros g Hcount Hlast. unfold TabGroup.nextTab, TabGroup.js_rem.
    rewrite Hlast.
    assert ((TabGroup.tabCount g =? 0)%Z = false) as -> by (apply Z.eqb_neq; lia).
    replace (TabGroup.tabCount g - 1 + 1)%Z with (TabGroup.tabCount g) by lia.
    rewrite Z.rem_same by lia.
    unfold TabGroup.tabCount in Hcount.
    destruct (TabGroup.tabs g) as [|t0 rest] eqn:Htabs; [cbn in Hcount; lia|].
    destruct (selectTab_in_range 0 t0 g) as (g' & Hsel & Ht & Hrec & _).
    { by rewrite Htabs. }
    exists g'. split; [exact Hsel|].
    unfold TabGroup.activeTabIndex, TabGroup.indexOf.
    rewrite Hrec, Ht, Htabs. cbn. by rewrite bool_decide_eq_true_2.
  - intros g Hnd Hcount Hfirst. unfold TabGroup.previousTab.
    rewrite Hfirst. cbn [Z.sub Z.opp Z.add Z.ltb Z.compare Z.pos_sub].
    unfold TabGroup.tabCount in *.
    destruct (lookup_lt_is_Some_2 (TabGroup.tabs g)
                (Nat.pred (length (TabGroup.tabs g)))) as [t Ht]; [lia|].
    destruct (selectTab_in_range _ t g Ht) as (g' & Hsel & Htabs & Hrec & _).
    replace (Z.of_nat (Nat.pred (length (TabGroup.tabs g))))
      with (Z.of_nat (length (TabGroup.tabs g)) - 1)%Z in Hsel by lia.
    exists g'. split; [exact Hsel|].
    unfold TabGroup.activeTabIndex, TabGroup.indexOf.
    rewrite Hrec, Htabs.
    rewrite (indexOf_from_lookup _ _ _ _ Hnd Ht). lia.
Qed.

(** C5, at an instance: a dropdown with three items and a group of
    three tabs. *)
Lemma clamp_versus_wraparound_witness :
  let env := Dropdown.mkEnv (Geometry.mkRect 0 0 0 0) (Geometry.mkRect 0 0 0 0)
               0 0 3 (fun _ => true) in
  let at_item i := Dropdown.mkState false true None (Dropdown.MenuItem i) 0 [] in
  let connected :=
    TabGroup.state_of (TabGroup.connectedCallback [10; 11; 12]
                         (TabGroup.constructed ∅)) in
  let at_last := TabGroup.state_of (TabGroup.selectTab (TabGroup.Int 2) connected) in
  Dropdown.handleContentKeydown env Dropdown.ArrowDown (at_item 2) = at_item 2 /\
  Dropdown.handleContentKeydown env Dropdown.ArrowUp (at_item 0) = at_item 0 /\
  (exists g', TabGroup.nextTab at_last = TabGroup.Returns true g' /\
              TabGroup.activeTabIndex g' = 0%Z) /\
  (exists g', TabGroup.previousTab connected = TabGroup.Returns true g' /\
              TabGroup.activeTabIndex g' = 2%Z).
Proof.
  cbv zeta.
  destruct clamp_versus_wraparound as (Hdown & Hup & Hnext & Hprev).
  split; [| split; [| split]].
  - apply (Hdown _ _ 2%nat); reflexivity.
  - apply Hup; reflexivity.
  - apply Hnext; vm_compute; reflexivity.
  - apply Hprev; [| vm_compute; reflexivity | vm_compute; reflexivity].
    vm_compute. repeat constructor; set_solver.
Defined.

(** C6, at the input that breaks it: [nextTab()] on a connected group
    without tabs.  [(-1 + 1) % 0] is [NaN], both range tests of
    [selectTab] are false at [NaN], and [activateTab(undefined)] ends in a
    [TypeError].  Integer indices outside [[0, count)] and
    [previousTab()] on such a group do return [false]
    ([selectTab_out_of_range], [previousTab_without_tabs]). *)
Theorem nextTab_without_tabs_throws :
  let g := TabGroup.state_of
             (TabGroup.connectedCallback [] (TabGroup.constructed ∅)) in
  TabGroup.tabCount g = 0%Z /\
  TabGroup.js_rem (TabGroup.activeTabIndex g + 1) (TabGroup.tabCount g)
    = TabGroup.NaN /\
  TabGroup.nextTab g = TabGroup.Throws g.
Proof. vm_compute. repeat split. Qed.

(** C7, at an input that breaks it: an open dropdown with three
    focusable items and the focus on the first one.  Escape in the content
    hides the content and calls [this.trigger.focus()] twice, Tab once;
    [this.trigger] is the wrapper [div] of the shadow tree, which cannot
    take the focus, so the focus is not returned to the trigger.  A click
    outside makes the same call, with the same lack of effect. *)
Theorem escape_does_not_return_focus :
  let env := Dropdown.mkEnv (Geometry.mkRect 0 0 0 0) (Geometry.mkRect 0 0 0 0)
               0 0 3 (fun _ => true) in
  let s := Dropdown.mkState false true None (Dropdown.MenuItem 0) 0 [] in
  let escaped := Dropdown.handleContentKeydown env Dropdown.Escape s in
  let tabbed := Dropdown.handleContentKeydown env Dropdown.Tab s in
  let clicked := Dropdown.handleDocumentClick env false s in
  (Dropdown.hidden escaped = true /\
   Dropdown.activeElement escaped = Dropdown.MenuItem 0 /\
   Dropdown.focusCalls escaped = [Dropdown.Trigger; Dropdown.Trigger]) /\
  (Dropdown.hidden tabbed = true /\
   Dropdown.activeElement tabbed = Dropdown.MenuItem 0 /\
   Dropdown.focusCalls tabbed = [Dropdown.Trigger]) /\
  (Dropdown.hidden clicked = true /\
   Dropdown.activeElement clicked = Dropdown.MenuItem 0 /\
   Dropdown.focusCalls clicked = [Dropdown.Trigger]).
Proof. vm_compute. repeat split. Qed.

(** C8, at an input that breaks it: accordion 0 of a group is toggled
    open, which puts it on record, and toggled again, which closes it.
    Nothing tells the group, and [currentOpenAccordion], "currently
    expanded accordion within the group" by its comment, still names
    it. *)
Theorem record_outlives_close :
  let g := AccordionGroup.run [AccordionGroup.Toggle 0] AccordionGroup.initial in
  let g' := AccordionGroup.toggle 0 g in
  AccordionGroup.expanded 0 g = true /\
  AccordionGroup.currentOpenAccordion g = Some 0 /\
  AccordionGroup.expanded 0 g' = false /\
  AccordionGroup.currentOpenAccordion g' = Some 0 /\
  AccordionGroup.currentOpenAccordion g' <> None.
Proof. vm_compute. repeat split. discriminate. Qed.

(** C9.  [open()] on a member that is open changes nothing: no
    sibling is asked to collapse, no ["accordion-expanded"] event is
    dispatched, and the log of notifications is the same. *)
Theorem open_idempotent (g : AccordionGroup.Group) (m : AccordionGroup.Accordion) :
  m ∈ AccordionGroup.isExpanded g ->
  AccordionGroup.open m g = g /\
  AccordionGroup.log (AccordionGroup.open m g) = AccordionGroup.log g.
Proof.
  intros Hm. apply expanded_true in Hm.
  unfold AccordionGroup.open. by rewrite Hm.
Qed.

(** C9, at an instance: member 1 of a group, opened before. *)
Lemma open_idempotent_witness :
  let g := AccordionGroup.run [AccordionGroup.Open 1] AccordionGroup.initial in
  AccordionGroup.open 1 g = g /\
  AccordionGroup.log (AccordionGroup.open 1 g) = [AccordionGroup.Expanded 1].
Proof.
  cbv zeta.
  destruct (open_idempotent
              (AccordionGroup.run [AccordionGroup.Open 1] AccordionGroup.initial) 1)
    as [Hsame Hlog].
  - vm_compute. set_solver.
  - split; [exact Hsame | rewrite Hlog; reflexivity].
Defined.

(** C10, at an input that breaks it: a group connected with two panels
    that are not upgraded yet.  [selectTab(0)] sets the first panel's
    [active] attribute and calls [tab.activate()], which is no method of a
    plain element: [connectedCallback] ends in a [TypeError],
    [activeTabIndex] is -1 although the group has panels, and
    [setupTabListeners] has not run. *)
Theorem connecting_before_panels_upgrade :
  let p := snd (TabLifecycle.connectedCallback [10; 11]
                  (TabLifecycle.constructed ∅ ∅)) in
  fst (TabLifecycle.connectedCallback [10; 11] (TabLifecycle.constructed ∅ ∅))
    = TabLifecycle.Thrown /\
  TabGroup.tabCount (TabLifecycle.group p) = 2%Z /\
  TabGroup.activeTabIndex (TabLifecycle.group p) = (-1)%Z /\
  TabGroup.isActive 10 (TabLifecycle.group p) = true /\
  TabLifecycle.listening p = false.
Proof. vm_compute. repeat split. Qed.

End Claims.

(** ** Further properties of the code *)

Section PlacementMore.
Import Geometry.
Local Open Scope Q_scope.

Ltac split_tests :=
  repeat match goal with
         | |- context [gt ?a ?b] =>
             let E := fresh "E" in
             destruct (gt a b) eqn:E;
             [apply gt_true in E | apply gt_false in E]
         | |- context [lt ?a ?b] =>
             let E := fresh "E" in
             destruct (lt a b) eqn:E;
             [apply lt_true in E | apply lt_false in E]
         end.

Lemma left_at_least_margin (t c : DOMRect) (vw vh : Q) :
  8 <= style_left (updatePosition t c vw vh).
Proof. unfold updatePosition; cbn [style_left]. split_tests; lra. Qed.

End PlacementMore.

Section AccordionsMore.
Import AccordionGroup.

Lemma sole_member (a : Accordion) (g : Group) :
  record_covers g -> a ∈ isExpanded g -> isExpanded g = {[a]}.
Proof.
  intros Hg Ha. apply set_eq. intros b. rewrite elem_of_singleton. split.
  - intros Hb. apply Hg in Ha, Hb. congruence.
  - by intros ->.
Qed.

Lemma listener004_current (a : Accordion) (g : Group) :
  currentOpenAccordion (onAccordionExpanded Part004 a g) = Some a.
Proof.
  unfold onAccordionExpanded. destruct (currentOpenAccordion g); [| done].
  by case_bool_decide.
Qed.

(** A click that opens a member of a part_004 group. *)
Lemma opening_click004 (a : Accordion) (g : Group) :
  record_covers g -> expanded a g = false ->
  isExpanded (handleTriggerClick Part004 a g) = {[a]} /\
  currentOpenAccordion (handleTriggerClick Part004 a g) = Some a.
Proof.
  intros Hg Ha. unfold handleTriggerClick.
  rewrite opening_runs_listener by done.
  split; [| apply listener004_current].
  apply sole_member; [by apply record_covers_expand |].
  apply elem_of_listener. cbn. split; [set_solver | done].
Qed.

(** X3.  In a group of part_004 members, after any clicks and
    [collapse()] calls, a click on a collapsed member leaves that member
    the only expanded one and the one on the group's record. *)
Theorem opening_click_leaves_sole_open_member (ops : list Op004) (a : Accordion) :
  a ∉ isExpanded (run004 ops initial) ->
  let g := handleTriggerClick Part004 a (run004 ops initial) in
  isExpanded g = {[a]} /\ currentOpenAccordion g = Some a.
Proof.
  intros Ha. apply opening_click004.
  - apply record_covers_run004, record_covers_initial.
  - by apply expanded_false.
Qed.

Lemma opening_click_leaves_sole_open_member_witness :
  let g := handleTriggerClick Part004 3
             (run004 [Click004 1; Click004 2; Collapse 2] initial) in
  isExpanded g = {[3]} /\ currentOpenAccordion g = Some 3.
Proof.
  apply (opening_click_leaves_sole_open_member
           [Click004 1; Click004 2; Collapse 2] 3).
  vm_compute. set_solver.
Defined.

(** X4.  In a group of part_004 members, a click on a collapsed member
    m2 while another member m1 is expanded makes the group call
    [collapse()] on m1 exactly once, after m2's ["accordion-expanded"]
    event; m2 is then the only expanded member and the one on record. *)
Theorem switching_collapses_previous_once (ops : list Op004) (m1 m2 : Accordion) :
  m1 ∈ isExpanded (run004 ops initial) ->
  m1 ≠ m2 ->
  let g := run004 ops initial in
  log (handleTriggerClick Part004 m2 g)
    = log g ++ [Expanded m2; CollapseCall m1] /\
  isExpanded (handleTriggerClick Part004 m2 g) = {[m2]} /\
  currentOpenAccordion (handleTriggerClick Part004 m2 g) = Some m2.
Proof.
  intros Hm1 Hne g.
  assert (record_covers g) as Hg by apply record_covers_run004, record_covers_initial.
  assert (expanded m2 g = false) as Hm2.
  { apply expanded_false. intros Hm2. apply Hg in Hm1, Hm2. congruence. }
  split; [| by apply opening_click004].
  unfold handleTriggerClick. rewrite opening_runs_listener by done.
  unfold onAccordionExpanded.
  cbn [currentOpenAccordion notify set_isExpanded log set_currentOpenAccordion].
  rewrite (Hg m1 Hm1). rewrite bool_decide_eq_true_2 by done.
  cbn [log set_currentOpenAccordion]. rewrite log_collapse. cbn.
  by rewrite <- app_assoc.
Qed.

Lemma switching_collapses_previous_once_witness :
  let g := run004 [Click004 1] initial in
  log (handleTriggerClick Part004 2 g) = log g ++ [Expanded 2; CollapseCall 1] /\
  isExpanded (handleTriggerClick Part004 2 g) = {[2]} /\
  currentOpenAccordion (handleTriggerClick Part004 2 g) = Some 2.
Proof.
  apply (switching_collapses_previous_once [Click004 1] 1 2).
  - vm_compute. set_solver.
  - discriminate.
Defined.

(** X5.  [toggle()] flips the member it is called on, in every state of
    the group: what the group's listener does in between never touches the
    member that has just expanded. *)
Theorem toggle_flips_member (a : Accordion) (g : Group) :
  expanded a (toggle a g) = negb (expanded a g).
Proof.
  destruct (expanded a g) eqn:Ha; cbn [negb].
  - rewrite toggle_expanded by done. apply expanded_false. cbn. set_solver.
  - unfold toggle. rewrite opening_runs_listener by done. apply expanded_true.
    apply elem_of_listener. cbn. split; [set_solver | discriminate].
Qed.

(** X6.  In a group of part_004 members, after any sequence of trigger
    clicks and [collapse()] calls, an expanded member is the one the group
    has on record (the converse fails: the record may name a member that
    has closed). *)
Theorem record_names_open_member (ops : list Op004) (a : Accordion) :
  a ∈ isExpanded (run004 ops initial) ->
  currentOpenAccordion (run004 ops initial) = Some a.
Proof. apply record_covers_run004, record_covers_initial. Qed.

Lemma record_names_open_member_witness :
  currentOpenAccordion (run004 [Click004 1; Click004 3; Collapse 1] initial) = Some 3.
Proof.
  apply (record_names_open_member [Click004 1; Click004 3; Collapse 1] 3).
  vm_compute. set_solver.
Defined.

Lemma step_flags (g : Group) (o : Op) (a b : Accordion) :
  step g o ∈ [open a g; close a g; toggle a g; handleTriggerClick AccordionTs a g] ->
  b ≠ a -> expanded b (step g o) = expanded b g.
Proof.
  intros Hin Hne.
  assert (expanded b (toggle a g) = expanded b g) as Htoggle.
  { destruct (expanded a g) eqn:Ha.
    - rewrite toggle_expanded by done. unfold expanded.
      apply bool_decide_ext. cbn. set_solver.
    - unfold toggle. rewrite opening_runs_listener by done. unfold expanded.
      apply bool_decide_ext. rewrite elem_of_listener. cbn.
      split; [intros [H _]; set_solver | intros H; split; [set_solver | discriminate]]. }
  assert (step g o = toggle a g \/ step g o = g) as [-> | ->]; [| done | done].
  unfold open, close, handleTriggerClick in Hin. fold (toggle a g) in Hin.
  destruct (expanded a g); cbn [negb] in Hin; set_solver.
Qed.

(** X26.  In a group of [Accordion.ts] members no operation on one
    member changes [isExpanded] of another: the group's listener raises a
    [TypeError] at [collapse()] before it changes anything. *)
Theorem accordion_ts_members_are_independent (g : Group) (a b : Accordion) :
  b ≠ a ->
  expanded b (open a g) = expanded b g /\
  expanded b (close a g) = expanded b g /\
  expanded b (toggle a g) = expanded b g /\
  expanded b (handleTriggerClick AccordionTs a g) = expanded b g.
Proof.
  intros Hne.
  pose proof (step_flags g (Open a) a b) as Hopen.
  pose proof (step_flags g (Close a) a b) as Hclose.
  pose proof (step_flags g (Toggle a) a b) as Htoggle.
  pose proof (step_flags g (Click a) a b) as Hclick.
  cbn [step] in *.
  repeat split; [apply Hopen | apply Hclose | apply Htoggle | apply Hclick];
    (done || set_solver).
Qed.

Lemma accordion_ts_members_are_independent_witness :
  let g := run [Open 1] initial in
  expanded 1 (open 2 g) = true /\
  expanded 1 (close 2 g) = true /\
  expanded 1 (toggle 2 g) = true /\
  expanded 1 (handleTriggerClick AccordionTs 2 g) = true.
Proof.
  apply (accordion_ts_members_are_independent (run [Open 1] initial) 2 1).
  discriminate.
Defined.

Lemma record_frozen_step (g : Group) (o : Op) (c : Accordion) :
  currentOpenAccordion g = Some c -> currentOpenAccordion (step g o) = Some c.
Proof.
  intros Hc.
  assert (forall a, currentOpenAccordion (toggle a g) = Some c) as Htoggle.
  { intros a. destruct (expanded a g) eqn:Ha.
    - by rewrite toggle_expanded.
    - unfold toggle. rewrite opening_runs_listener by done.
      unfold onAccordionExpanded. cbn [currentOpenAccordion notify set_isExpanded].
      rewrite Hc. case_bool_decide as Hne; cbn; [done | congruence]. }
  destruct o as [a|a|a|a]; cbn [step]; unfold open, close;
    try destruct (expanded a g); cbn [negb]; try done; apply Htoggle.
Qed.

(** X27.  In a group of [Accordion.ts] members the record, once set,
    never changes: it names the first member that expanded, whatever
    expands or closes afterwards. *)
Theorem accordion_ts_record_never_changes (g : Group) (ops : list Op) (c : Accordion) :
  currentOpenAccordion g = Some c ->
  currentOpenAccordion (run ops g) = Some c.
Proof.
  revert g. induction ops as [|o ops IH]; intros g Hc; [done |].
  cbn. apply IH. by apply record_frozen_step.
Qed.

Lemma accordion_ts_record_never_changes_witness :
  currentOpenAccordion (run [Toggle 3; Close 1; Open 2] (run [Open 1] initial))
  = Some 1.
Proof.
  apply (accordion_ts_record_never_changes (run [Open 1] initial)
           [Toggle 3; Close 1; Open 2] 1).
  reflexivity.
Defined.

(** X28.  A member that goes from open to closed, by [toggle()] or
    [close()] or a click on its trigger in either class or by
    [collapse()], notifies nobody, and the group's record stays as it
    was, whether or not it names that member. *)
Theorem closing_keeps_record (g g' : Group) (a : Accordion) :
  a ∈ isExpanded g ->
  g' ∈ [toggle a g; close a g; collapse a g;
        handleTriggerClick AccordionTs a g; handleTriggerClick Part004 a g] ->
  (a ∉ isExpanded g') /\
  currentOpenAccordion g' = currentOpenAccordion g /\
  log g' = log g.
Proof.
  intros Ha Hg'. apply expanded_true in Ha.
  assert (g' = set_isExpanded a false g) as ->.
  { unfold close, handleTriggerClick in Hg'.
    rewrite Ha, collapse_expanded, toggle_expanded,
      !closing_runs_no_listener in Hg' by done.
    set_solver. }
  cbn. set_solver.
Qed.

Lemma closing_keeps_record_witness :
  let g := run [Open 1] initial in
  (1 ∉ isExpanded (close 1 g)) /\
  currentOpenAccordion (close 1 g) = Some 1 /\
  log (close 1 g) = log g.
Proof.
  cbv zeta.
  apply (closing_keeps_record (run [Open 1] initial) _ 1).
  - vm_compute. set_solver.
  - set_solver.
Defined.

End AccordionsMore.

Section AccordionElements.
Import AccordionElement.





End AccordionElements.

Section TabsMore.
Import TabGroup.

Lemma indexOf_from_range (l : list Tab) (t : Tab) (i : Z) :
  indexOf_from l t i = (-1)%Z \/
  (i <= indexOf_from l t i < i + Z.of_nat (length l))%Z.
Proof.
  revert i. induction l as [|t' l IH]; intros i; cbn [indexOf_from length]; [by left|].
  case_bool_decide.
  - right. lia.
  - destruct (IH (i + 1)%Z) as [-> | ?]; [by left | right; lia].
Qed.

Lemma activeTabIndex_bounds (g : Group) :
  (-1 <= activeTabIndex g < tabCount g)%Z.
Proof.
  unfold activeTabIndex, tabCount, indexOf.
  destruct (_activeTab g) as [t|]; [| lia].
  destruct (indexOf_from_range (tabs g) t 0) as [-> | ?]; lia.
Qed.

(** What [selectTab] does at a position of the array. *)
Lemma selectTab_at (z : Z) (g : Group) :
  NoDup (tabs g) -> (0 <= z < tabCount g)%Z ->
  exists g' t,
    selectTab (Int z) g = Returns true g' /\
    tabs g !! Z.to_nat z = Some t /\
    tabs g' = tabs g /\ _activeTab g' = Some t /\ activeTabIndex g' = z /\
    forall u, u ∈ tabs g -> (isActive u g' = true <-> u = t).
Proof.
  intros Hnd Hz. unfold tabCount in Hz.
  destruct (lookup_lt_is_Some_2 (tabs g) (Z.to_nat z)) as [t Ht]; [lia|].
  destruct (selectTab_in_range _ t g Ht) as (g' & Hsel & Htabs & Hrec & Hin & Hact).
  rewrite Z2Nat.id in Hsel by lia.
  exists g', t. repeat split; try done.
  - unfold activeTabIndex, indexOf. rewrite Hrec, Htabs.
    rewrite (indexOf_from_lookup _ _ _ _ Hnd Ht). lia.
  - rewrite isActive_true. intros Hu.
    destruct (Hact u Hu) as [|[_ Hout]]; done.
  - intros ->. by apply isActive_true.
Qed.

Lemma nextTab_at (g : Group) :
  NoDup (tabs g) -> (0 < tabCount g)%Z ->
  exists g',
    nextTab g = Returns true g' /\ tabs g' = tabs g /\
    activeTabIndex g' = ((activeTabIndex g + 1) mod tabCount g)%Z.
Proof.
  intros Hnd Hcount. pose proof (activeTabIndex_bounds g) as Hidx.
  unfold nextTab, js_rem.
  assert ((tabCount g =? 0)%Z = false) as -> by (apply Z.eqb_neq; lia).
  rewrite Z.rem_mod_nonneg by lia.
  pose proof (Z.mod_pos_bound (activeTabIndex g + 1) (tabCount g) Hcount) as Hk.
  destruct (selectTab_at _ g Hnd Hk) as (g' & t & Hsel & _ & Htabs & _ & Hi & _).
  by exists g'.
Qed.

Lemma previousTab_at (g : Group) :
  NoDup (tabs g) -> (0 < tabCount g)%Z ->
  exists g',
    previousTab g = Returns true g' /\ tabs g' = tabs g /\
    activeTabIndex g' =
      (if (activeTabIndex g <=? 0)%Z then tabCount g - 1 else activeTabIndex g - 1)%Z.
Proof.
  intros Hnd Hcount. pose proof (activeTabIndex_bounds g) as Hidx.
  unfold previousTab.
  destruct (activeTabIndex g <=? 0)%Z eqn:E.
  - apply Z.leb_le in E.
    assert ((activeTabIndex g - 1 <? 0)%Z = true) as -> by (apply Z.ltb_lt; lia).
    destruct (selectTab_at (tabCount g - 1) g Hnd) as (g' & t & Hsel & _ & Htabs & _ & Hi & _);
      [lia|]. by exists g'.
  - apply Z.leb_gt in E.
    assert ((activeTabIndex g - 1 <? 0)%Z = false) as -> by (apply Z.ltb_ge; lia).
    destruct (selectTab_at (activeTabIndex g - 1) g Hnd) as (g' & t & Hsel & _ & Htabs & _ & Hi & _);
      [lia|]. by exists g'.
Qed.

(** The group of the examples below: three panels, the first selected. *)
Lemma three_tabs_NoDup : NoDup ([10; 11; 12] : list Tab).
Proof. repeat constructor; set_solver. Qed.

(** X9.  [selectTab(i)] at a position [i] of [this.tabs] returns [true];
    afterwards [activeTabIndex] is [i] and, of the group's tabs, the
    [i]-th and no other is active, whatever was active before. *)
Theorem selectTab_selects (i : nat) (t : Tab) (g : Group) :
  NoDup (tabs g) ->
  tabs g !! i = Some t ->
  exists g',
    selectTab (Int (Z.of_nat i)) g = Returns true g' /\
    activeTabIndex g' = Z.of_nat i /\
    activeTab g' = Some t /\
    forall u, u ∈ tabs g -> (isActive u g' = true <-> u = t).
Proof.
  intros Hnd Hi. pose proof (lookup_lt_Some _ _ _ Hi) as Hlt.
  destruct (selectTab_at (Z.of_nat i) g Hnd) as (g' & t' & Hsel & Ht' & _ & Hrec & Hidx & Hact).
  { unfold tabCount. lia. }
  rewrite Nat2Z.id, Hi in Ht'. injection Ht' as <-.
  by exists g'.
Qed.

Lemma selectTab_selects_witness :
  exists g',
    selectTab (Int 2) (mkGroup [10; 11; 12] (Some 10) {[10; 11]}) = Returns true g' /\
    activeTabIndex g' = 2%Z /\
    activeTab g' = Some 12 /\
    forall u, u ∈ [10; 11; 12] -> (isActive u g' = true <-> u = 12).
Proof.
  apply (selectTab_selects 2 12 (mkGroup [10; 11; 12] (Some 10) {[10; 11]})).
  - exact three_tabs_NoDup.
  - reflexivity.
Defined.

(** X10.  At an integer index, [selectTab] returns [false], and leaves
    the group as it is, exactly when the index is outside [[0, count)]. *)
Theorem selectTab_false_iff_out_of_range (z : Z) (g : Group) :
  selectTab (Int z) g = Returns false g <-> (z < 0 \/ tabCount g <= z)%Z.
Proof.
  split; [| apply selectTab_out_of_range].
  intros Hsel.
  destruct (Z.lt_ge_cases z 0) as [|Hz0]; [by left|].
  destruct (Z.lt_ge_cases z (tabCount g)) as [Hlt|]; [exfalso | by right].
  unfold tabCount in Hlt.
  destruct (lookup_lt_is_Some_2 (tabs g) (Z.to_nat z)) as [t Ht]; [lia|].
  destruct (selectTab_in_range _ t g Ht) as (g' & Hsel' & _).
  rewrite Z2Nat.id in Hsel' by lia. congruence.
Qed.

(** X11.  On a group with a tab, [nextTab()] never fails: it returns
    [true] and moves [activeTabIndex] to [(index + 1) mod count]; with no
    active tab (index -1) it selects the first one. *)
Theorem nextTab_advances (g : Group) :
  NoDup (tabs g) ->
  tabs g <> [] ->
  exists g',
    nextTab g = Returns true g' /\
    activeTabIndex g' = ((activeTabIndex g + 1) mod tabCount g)%Z.
Proof.
  intros Hnd Hne.
  destruct (nextTab_at g Hnd) as (g' & Hnext & _ & Hidx).
  { unfold tabCount. destruct (tabs g); [done | cbn; lia]. }
  by exists g'.
Qed.

Lemma nextTab_advances_witness :
  exists g',
    nextTab (mkGroup [10; 11; 12] (Some 11) {[11]}) = Returns true g' /\
    activeTabIndex g' = 2%Z.
Proof.
  apply (nextTab_advances (mkGroup [10; 11; 12] (Some 11) {[11]})).
  - exact three_tabs_NoDup.
  - discriminate.
Defined.

(** X12.  On a group with a tab, [previousTab()] never fails: it returns
    [true] and moves [activeTabIndex] to [index - 1], or to [count - 1]
    when the index is 0 or no tab is active. *)
Theorem previousTab_steps_back (g : Group) :
  NoDup (tabs g) ->
  tabs g <> [] ->
  exists g',
    previousTab g = Returns true g' /\
    activeTabIndex g' =
      (if (activeTabIndex g <=? 0)%Z then tabCount g - 1 else activeTabIndex g - 1)%Z.
Proof.
  intros Hnd Hne.
  destruct (previousTab_at g Hnd) as (g' & Hprev & _ & Hidx).
  { unfold tabCount. destruct (tabs g); [done | cbn; lia]. }
  by exists g'.
Qed.

Lemma previousTab_steps_back_witness :
  exists g',
    previousTab (mkGroup [10; 11; 12] None ∅) = Returns true g' /\
    activeTabIndex g' = 2%Z.
Proof.
  apply (previousTab_steps_back (mkGroup [10; 11; 12] None ∅)).
  - exact three_tabs_NoDup.
  - discriminate.
Defined.

(** X13.  When a tab of the group is active, [nextTab()] followed by
    [previousTab()], and [previousTab()] followed by [nextTab()], both
    succeed and come back to the same index. *)
Theorem next_and_previous_cancel (g : Group) :
  NoDup (tabs g) ->
  (0 <= activeTabIndex g)%Z ->
  (exists g1 g2,
     nextTab g = Returns true g1 /\ previousTab g1 = Returns true g2 /\
     activeTabIndex g2 = activeTabIndex g) /\
  (exists g1 g2,
     previousTab g = Returns true g1 /\ nextTab g1 = Returns true g2 /\
     activeTabIndex g2 = activeTabIndex g).
Proof.
  intros Hnd Hactive. pose proof (activeTabIndex_bounds g) as Hidx.
  assert (0 < tabCount g)%Z as Hcount by lia.
  split.
  - destruct (nextTab_at g Hnd Hcount) as (g1 & Hnext & Htabs1 & Hidx1).
    destruct (previousTab_at g1) as (g2 & Hprev & _ & Hidx2).
    { by rewrite Htabs1. }
    { unfold tabCount. rewrite Htabs1. exact Hcount. }
    exists g1, g2. repeat split; [done | done |].
    rewrite Hidx2, Hidx1. unfold tabCount. rewrite Htabs1. fold (tabCount g).
    destruct (Z.eq_dec (activeTabIndex g + 1)%Z (tabCount g)) as [Heq | Hneq].
    + rewrite Heq, Z.mod_same by lia. cbn. lia.
    + rewrite Z.mod_small by lia.
      assert ((activeTabIndex g + 1 <=? 0)%Z = false) as -> by (apply Z.leb_gt; lia).
      lia.
  - destruct (previousTab_at g Hnd Hcount) as (g1 & Hprev & Htabs1 & Hidx1).
    destruct (nextTab_at g1) as (g2 & Hnext & _ & Hidx2).
    { by rewrite Htabs1. }
    { unfold tabCount. rewrite Htabs1. exact Hcount. }
    exists g1, g2. repeat split; [done | done |].
    rewrite Hidx2, Hidx1. unfold tabCount. rewrite Htabs1. fold (tabCount g).
    destruct (activeTabIndex g <=? 0)%Z eqn:E.
    + apply Z.leb_le in E.
      replace (tabCount g - 1 + 1)%Z with (tabCount g) by lia.
      rewrite Z.mod_same by lia. lia.
    + apply Z.leb_gt in E.
      replace (activeTabIndex g - 1 + 1)%Z with (activeTabIndex g) by lia.
      rewrite Z.mod_small by lia. done.
Qed.

Lemma next_and_previous_cancel_witness :
  let g := mkGroup [10; 11; 12] (Some 12) {[12]} in
  (exists g1 g2,
     nextTab g = Returns true g1 /\ previousTab g1 = Returns true g2 /\
     activeTabIndex g2 = 2%Z) /\
  (exists g1 g2,
     previousTab g = Returns true g1 /\ nextTab g1 = Returns true g2 /\
     activeTabIndex g2 = 2%Z).
Proof.
  apply (next_and_previous_cancel (mkGroup [10; 11; 12] (Some 12) {[12]})).
  - exact three_tabs_NoDup.
  - vm_compute. discriminate.
Defined.

(** X14.  [activeTabIndex] is -1 or a position of [this.tabs], in every
    state: -1 also when the active tab is not one of the group's. *)
Theorem activeTabIndex_in_range (g : Group) :
  (activeTabIndex g = -1 \/ 0 <= activeTabIndex g < tabCount g)%Z /\
  (forall t, _activeTab g = Some t -> t ∉ tabs g -> activeTabIndex g = (-1)%Z).
Proof.
  split.
  - pose proof (activeTabIndex_bounds g). lia.
  - intros t Ht Hnotin. unfold activeTabIndex, indexOf. rewrite Ht.
    generalize 0%Z. induction (tabs g) as [|t' l IH]; intros i; [done|].
    cbn [indexOf_from]. rewrite bool_decide_eq_false_2 by set_solver.
    apply IH. set_solver.
Qed.

End TabsMore.

Section TabTriggersMore.
Import TabGroup TabTriggers.

Lemma activateTab_erases (tab : option Tab) (st : Strip) :
  fst (activateTab tab st) = TabGroup.activateTab tab (group st) /\
  group (snd (activateTab tab st)) = state_of (TabGroup.activateTab tab (group st)) /\
  triggers (snd (activateTab tab st)) = triggers st /\
  selected (snd (activateTab tab st)) = selected st.
Proof.
  unfold activateTab, TabGroup.activateTab. destruct tab as [t|]; [| done].
  cbn zeta. unfold activate, TabGroup.activate. cbn [group set_group].
  match goal with |- context [isActive t ?h] =>
    assert (isActive t h = true) as -> by (apply isActive_true; cbn; set_solver)
  end.
  done.
Qed.

Lemma selectTab_erases (index : number) (st : Strip) :
  fst (selectTab index st) = TabGroup.selectTab index (group st) /\
  group (snd (selectTab index st)) = state_of (TabGroup.selectTab index (group st)) /\
  triggers (snd (selectTab index st)) = triggers st /\
  selected (snd (selectTab index st)) = selected st.
Proof.
  unfold selectTab, TabGroup.selectTab.
  destruct (js_lt index 0 || js_ge index _); [done|].
  destruct (activateTab_erases (js_index (tabs (group st)) index) st)
    as (Hfst & Hgroup & Htriggers & Hselected).
  destruct (activateTab (js_index (tabs (group st)) index) st) as [r st'].
  cbn [fst snd] in *. rewrite <- Hfst in Hgroup |- *.
  destruct r; cbn [fst snd state_of] in *; done.
Qed.

(** X15.  [selectTab], and with it a click on a trigger, changes the
    panels as [TabGroup.selectTab] says and never the triggers: no
    ["tab-activated"] event is dispatched on this path (the panel already
    carries [active] when [activate()] is called), so [updateTabStates]
    does not run and the [selected] attributes stay as they were. *)
Theorem selection_never_updates_triggers (st : Strip) :
  (forall index : number,
     fst (selectTab index st) = TabGroup.selectTab index (group st) /\
     group (snd (selectTab index st))
       = state_of (TabGroup.selectTab index (group st)) /\
     selected (snd (selectTab index st)) = selected st) /\
  (forall i : nat,
     group (onTabTriggerClick i st)
       = state_of (TabGroup.selectTab (Int (Z.of_nat i)) (group st)) /\
     selected (onTabTriggerClick i st) = selected st).
Proof.
  split.
  - intros index. destruct (selectTab_erases index st) as (? & ? & _ & ?). done.
  - intros i. unfold onTabTriggerClick.
    assert ((0 <=? Z.of_nat i)%Z = true) as -> by (apply Z.leb_le; lia).
    destruct (selectTab_erases (Int (Z.of_nat i)) st) as (_ & ? & _ & ?). done.
Qed.

(** X16.  [activate()] called on an inactive panel of the group is the
    path that does reach the triggers: afterwards the trigger at the
    panel's position is the only selected one, and none is selected when
    the group has no trigger at that position. *)
Theorem activate_selects_matching_trigger (i : nat) (t : Tab) (st : Strip) :
  NoDup (tabs (group st)) ->
  tabs (group st) !! i = Some t ->
  isActive t (group st) = false ->
  group (activate t st) = TabGroup.activate t (group st) /\
  selected (activate t st) = if bool_decide (i < triggers st) then {[i]} else ∅.
Proof.
  intros Hnd Hi Hinactive. unfold activate, TabGroup.activate.
  rewrite Hinactive. cbn [negb]. split; [done|].
  unfold onTabActivated, updateTabStates. cbn [selected group set_group triggers].
  assert (tabs (TabGroup.onTabActivated t
                  (set_active (active (group st) ∪ {[t]}) (group st)))
          = tabs (group st)) as ->.
  { unfold TabGroup.onTabActivated. cbn [tabs set_activeTab].
    destruct (_activeTab _); [| done].
    case_bool_decide; [by rewrite tabs_deactivate | done]. }
  unfold indexOf. rewrite (indexOf_from_lookup _ _ _ _ Hnd Hi).
  apply set_eq. intros j.
  rewrite elem_of_list_to_set, list_elem_of_filter, elem_of_seq.
  case_bool_decide; set_solver by lia.
Qed.

Lemma activate_selects_matching_trigger_witness :
  let st := mkStrip (mkGroup [10; 11; 12] (Some 10) {[10]}) 3 {[0]} in
  group (activate 11 st) = TabGroup.activate 11 (group st) /\
  selected (activate 11 st) = {[1]}.
Proof.
  apply (activate_selects_matching_trigger 1 11
           (mkStrip (mkGroup [10; 11; 12] (Some 10) {[10]}) 3 {[0]})).
  - repeat constructor; set_solver.
  - reflexivity.
  - vm_compute. reflexivity.
Defined.

End TabTriggersMore.

Section DropdownsMore.
Import Dropdown DropdownMachine.

Lemma focusFirst_frame (env : Env) (s : State) :
  hidden (focusFirstMenuItem env s) = hidden s /\
  style (focusFirstMenuItem env s) = style s /\
  ariaExpanded (focusFirstMenuItem env s) = ariaExpanded s /\
  frameRequests (focusFirstMenuItem env s) = frameRequests s.
Proof.
  unfold focusFirstMenuItem. destruct (0 <? menuitems env)%nat; [| done].
  apply focus_frame.
Qed.

Lemma iter_focus_frame (env : Env) (n : nat) (s : State) :
  hidden (Nat.iter n (focusFirstMenuItem env) s) = hidden s /\
  style (Nat.iter n (focusFirstMenuItem env) s) = style s /\
  ariaExpanded (Nat.iter n (focusFirstMenuItem env) s) = ariaExpanded s /\
  frameRequests (Nat.iter n (focusFirstMenuItem env) s) = frameRequests s.
Proof.
  induction n as [|n IH]; [done|]. rewrite Nat.iter_succ.
  destruct IH as (<- & <- & <- & <-). apply focusFirst_frame.
Qed.

Lemma positioned_shown (env : Env) (s : State) (f : State -> State) :
  (forall s', hidden (f s') = hidden s' /\ style (f s') = style s') ->
  positioned (f (showMenu env s)).
Proof.
  intros Hf _. destruct (Hf (showMenu env s)) as [_ ->].
  eexists. split; [reflexivity | apply left_at_least_margin].
Qed.

Lemma positioned_frame (s s' : State) :
  hidden s' = hidden s -> style s' = style s -> positioned s -> positioned s'.
Proof. unfold positioned. intros -> ->. done. Qed.

Lemma positioned_step (s : State) (ev : Env * Event) :
  positioned s -> positioned (step s ev).
Proof.
  intros Hs. destruct ev as [env e]. destruct e as [|k|k|inside| |]; cbn [step].
  - unfold handleTriggerClick, toggleMenu.
    destruct (hidden s) eqn:Hh; cbn [negb].
    + by apply (positioned_shown env s (set_ariaExpanded true)).
    + intros Hvis. discriminate Hvis.
  - destruct k; cbn [handleTriggerKeydown];
      first [ exact Hs
            | by intros Hvis
            | apply (positioned_shown env s (focusFirstMenuItem env));
              intros s'; by destruct (focusFirst_frame env s') as (? & ? & _) ].
  - destruct k; cbn [handleContentKeydown];
      first [ exact Hs | by intros Hvis | idtac ].
    + destruct (_ <? _)%Z; [| done].
      eapply positioned_frame; [| | exact Hs]; apply focus_frame.
    + destruct (_ <? _)%Z; [| done].
      eapply positioned_frame; [| | exact Hs]; apply focus_frame.
  - unfold handleDocumentClick. destruct inside; cbn [negb]; [done|].
    intros Hvis. discriminate Hvis.
  - intros _. eexists. split; [reflexivity | apply left_at_least_margin].
  - unfold animationFrame.
    destruct (iter_focus_frame env (frameRequests s) (set_frameRequests 0 s))
      as (Hh & Hst & _).
    eapply positioned_frame; [exact Hh | exact Hst | exact Hs].
Qed.

(** X17.  Whatever events the dropdown receives after it is set up
    (clicks, keys on the trigger and in the content, clicks elsewhere,
    scrolls, resizes, animation frames), whenever its content is visible
    the content has been given a position, with [left] at least 8. *)
Theorem visible_content_is_positioned (focused : Element)
    (evs : list (Env * Event)) :
  positioned (run evs (initial focused)).
Proof.
  unfold run.
  assert (positioned (initial focused)) as Hinit by (intros Hvis; discriminate Hvis).
  revert Hinit. generalize (initial focused).
  induction evs as [|ev evs IH]; intros s Hs; [done|].
  cbn. apply IH. by apply positioned_step.
Qed.

Lemma arrow_down_once (env : Env) (s : State) (j : nat) :
  (forall i, (i < menuitems env)%nat -> focusable env i = true) ->
  activeElement s = MenuItem j -> (j < menuitems env)%nat ->
  activeElement (handleContentKeydown env ArrowDown s)
  = MenuItem (Nat.min (j + 1) (menuitems env - 1)).
Proof.
  intros Hfocus Hj Hlt. unfold handleContentKeydown, currentIndex. rewrite Hj.
  assert ((j <? menuitems env)%nat = true) as -> by (apply Nat.ltb_lt; lia).
  destruct (Z.of_nat j <? Z.of_nat (menuitems env) - 1)%Z eqn:E.
  - apply Z.ltb_lt in E. rewrite focus_activeElement.
    replace (Z.to_nat (Z.of_nat j + 1)) with (S j) by lia.
    cbn [takesFocus].
    assert ((S j <? menuitems env)%nat = true) as -> by (apply Nat.ltb_lt; lia).
    rewrite Hfocus by lia. cbn. f_equal. lia.
  - apply Z.ltb_ge in E. rewrite Hj. f_equal. lia.
Qed.

Lemma arrow_up_once (env : Env) (s : State) (j : nat) :
  (forall i, (i < menuitems env)%nat -> focusable env i = true) ->
  activeElement s = MenuItem j -> (j < menuitems env)%nat ->
  activeElement (handleContentKeydown env ArrowUp s) = MenuItem (j - 1).
Proof.
  intros Hfocus Hj Hlt. unfold handleContentKeydown, currentIndex. rewrite Hj.
  assert ((j <? menuitems env)%nat = true) as -> by (apply Nat.ltb_lt; lia).
  destruct (0 <? Z.of_nat j)%Z eqn:E.
  - apply Z.ltb_lt in E. rewrite focus_activeElement.
    replace (Z.to_nat (Z.of_nat j - 1)) with (j - 1)%nat by lia.
    cbn [takesFocus].
    assert ((j - 1 <? menuitems env)%nat = true) as -> by (apply Nat.ltb_lt; lia).
    rewrite Hfocus by lia. done.
  - apply Z.ltb_ge in E. rewrite Hj. f_equal. lia.
Qed.

(** X18.  In a menu whose items all take the focus, with the focus on
    item [i], [k] presses of ArrowDown leave it on item
    [min (i + k) last]: the cursor moves one item down per press and stops
    at the last item. *)
Theorem arrow_down_clamps (env : Env) (s : State) (i k : nat) :
  (forall j, (j < menuitems env)%nat -> focusable env j = true) ->
  activeElement s = MenuItem i ->
  (i < menuitems env)%nat ->
  activeElement (Nat.iter k (handleContentKeydown env ArrowDown) s)
  = MenuItem (Nat.min (i + k) (menuitems env - 1)).
Proof.
  intros Hfocus Hi Hlt. induction k as [|k IH]; [| rewrite Nat.iter_succ].
  - cbn. rewrite Hi. f_equal. lia.
  - rewrite (arrow_down_once env _ _ Hfocus IH) by lia. f_equal. lia.
Qed.

Lemma arrow_down_clamps_witness :
  let env := mkEnv (Geometry.mkRect 0 0 0 0) (Geometry.mkRect 0 0 0 0) 0 0 3
               (fun _ => true) in
  let s := mkState false true None (MenuItem 1) 0 [] in
  activeElement (Nat.iter 5 (handleContentKeydown env ArrowDown) s) = MenuItem 2.
Proof.
  apply (arrow_down_clamps
           (mkEnv (Geometry.mkRect 0 0 0 0) (Geometry.mkRect 0 0 0 0) 0 0 3
              (fun _ => true))
           (mkState false true None (MenuItem 1) 0 []) 1 5).
  - reflexivity.
  - reflexivity.
  - cbn. lia.
Defined.

(** X19.  In a menu whose items all take the focus, with the focus on
    item [i], [k] presses of ArrowUp leave it on item [i - k], and on the
    first item once [k] reaches [i]. *)
Theorem arrow_up_clamps (env : Env) (s : State) (i k : nat) :
  (forall j, (j < menuitems env)%nat -> focusable env j = true) ->
  activeElement s = MenuItem i ->
  (i < menuitems env)%nat ->
  activeElement (Nat.iter k (handleContentKeydown env ArrowUp) s)
  = MenuItem (i - k).
Proof.
  intros Hfocus Hi Hlt. induction k as [|k IH]; [| rewrite Nat.iter_succ].
  - cbn. rewrite Hi. f_equal. lia.
  - rewrite (arrow_up_once env _ _ Hfocus IH) by lia. f_equal. lia.
Qed.

Lemma arrow_up_clamps_witness :
  let env := mkEnv (Geometry.mkRect 0 0 0 0) (Geometry.mkRect 0 0 0 0) 0 0 3
               (fun _ => true) in
  let s := mkState false true None (MenuItem 1) 0 [] in
  activeElement (Nat.iter 5 (handleContentKeydown env ArrowUp) s) = MenuItem 0.
Proof.
  apply (arrow_up_clamps
           (mkEnv (Geometry.mkRect 0 0 0 0) (Geometry.mkRect 0 0 0 0) 0 0 3
              (fun _ => true))
           (mkState false true None (MenuItem 1) 0 []) 1 5).
  - reflexivity.
  - reflexivity.
  - cbn. lia.
Defined.

(** X20.  With the focus on none of the menu items, ArrowDown calls
    [focus()] on the first item when the menu has one, which moves the
    focus there if that item takes the focus, and ArrowUp does nothing. *)
Theorem arrows_from_outside_the_items (env : Env) (s : State) :
  currentIndex env s = (-1)%Z ->
  activeElement (handleContentKeydown env ArrowDown s)
    = (if (0 <? menuitems env)%nat && focusable env 0
       then MenuItem 0 else activeElement s) /\
  focusCalls (handleContentKeydown env ArrowDown s)
    = (if (0 <? menuitems env)%nat
       then focusCalls s ++ [MenuItem 0] else focusCalls s) /\
  handleContentKeydown env ArrowUp s = s.
Proof.
  intros Hout. unfold handleContentKeydown. rewrite Hout.
  split; [| split; [| done]].
  - destruct (menuitems env) as [|n] eqn:Hn; [done |].
    assert ((-1 <? Z.of_nat (S n) - 1)%Z = true) as -> by (apply Z.ltb_lt; lia).
    rewrite focus_activeElement. cbn [takesFocus Z.to_nat Z.add Z.opp Z.pos_sub].
    by rewrite Hn.
  - destruct (menuitems env) as [|n] eqn:Hn; [done |].
    assert ((-1 <? Z.of_nat (S n) - 1)%Z = true) as -> by (apply Z.ltb_lt; lia).
    unfold focus. by destruct (takesFocus env _).
Qed.

Lemma arrows_from_outside_the_items_witness :
  let env := mkEnv (Geometry.mkRect 0 0 0 0) (Geometry.mkRect 0 0 0 0) 0 0 3
               (fun _ => true) in
  let s := mkState false true None Elsewhere 0 [] in
  activeElement (handleContentKeydown env ArrowDown s) = MenuItem 0 /\
  focusCalls (handleContentKeydown env ArrowDown s) = [MenuItem 0] /\
  handleContentKeydown env ArrowUp s = s.
Proof.
  apply (arrows_from_outside_the_items
           (mkEnv (Geometry.mkRect 0 0 0 0) (Geometry.mkRect 0 0 0 0) 0 0 3
              (fun _ => true))
           (mkState false true None Elsewhere 0 [])).
  reflexivity.
Defined.

(** X21.  The trigger's [aria-expanded] is written by a click on the
    trigger only, which leaves it the negation of [hidden]; keys, clicks
    elsewhere, scrolls, resizes and animation frames leave it as it was,
    also when they show or hide the content. *)
Theorem aria_expanded_follows_clicks_only (env : Env) (s : State) :
  ariaExpanded (step s (env, TriggerClick))
    = negb (hidden (step s (env, TriggerClick))) /\
  forall e : Event, e <> TriggerClick ->
    ariaExpanded (step s (env, e)) = ariaExpanded s.
Proof.
  split.
  - cbn. unfold handleTriggerClick, toggleMenu. by destruct (hidden s).
  - intros e He. destruct e as [|k|k|inside| |]; cbn [step]; [done | | | | |].
    + destruct k; cbn [handleTriggerKeydown]; try done;
        by destruct (focusFirst_frame env (showMenu env s)) as (_ & _ & -> & _).
    + destruct k; cbn [handleContentKeydown]; try done;
        destruct (_ <? _)%Z; try done;
        match goal with |- ariaExpanded (focus ?v ?e ?t) = _ =>
          by destruct (focus_frame v e t) as (_ & _ & -> & _)
        end.
    + by destruct inside.
    + done.
    + unfold animationFrame.
      by destruct (iter_focus_frame env (frameRequests s) (set_frameRequests 0 s))
        as (_ & _ & -> & _).
Qed.

(** X22.  Enter, Space and ArrowDown on the trigger open the menu and
    never close it: in every state, open or closed, the content is
    visible afterwards, and the focus is on the first menu item if there
    is one and it takes the focus, and where it was otherwise. *)
Theorem trigger_keys_open_the_menu (env : Env) (s : State) (k : Key) :
  k ∈ [Enter; Space; ArrowDown] ->
  let s' := handleTriggerKeydown env k s in
  hidden s' = false /\
  activeElement s'
    = if (0 <? menuitems env)%nat && focusable env 0
      then MenuItem 0 else activeElement s.
Proof.
  intros Hk. cbv zeta.
  assert (handleTriggerKeydown env k s = focusFirstMenuItem env (showMenu env s)) as ->.
  { set_unfold in Hk. by destruct Hk as [-> | [-> | [-> | []]]]. }
  split.
  - by destruct (focusFirst_frame env (showMenu env s)) as (-> & _).
  - unfold focusFirstMenuItem. destruct (0 <? menuitems env)%nat eqn:Hn; [| done].
    rewrite focus_activeElement. cbn [takesFocus]. by rewrite Hn.
Qed.

Lemma trigger_keys_open_the_menu_witness :
  let env := mkEnv (Geometry.mkRect 0 0 0 0) (Geometry.mkRect 0 0 0 0) 0 0 2
               (fun _ => true) in
  let s' := handleTriggerKeydown env Space (initial Elsewhere) in
  hidden s' = false /\ activeElement s' = MenuItem 0.
Proof.
  apply (trigger_keys_open_the_menu
           (mkEnv (Geometry.mkRect 0 0 0 0) (Geometry.mkRect 0 0 0 0) 0 0 2
              (fun _ => true))
           (initial Elsewhere) Space).
  set_solver.
Defined.

End DropdownsMore.

Section TabsFurther.
Import TabGroup.

(** X23, at an instance: [previousTab()] on a group that was connected
    without panels returns [false] and changes nothing. *)
Lemma previousTab_without_tabs_witness :
  previousTab (state_of (connectedCallback [] (constructed ∅)))
  = Returns false (state_of (connectedCallback [] (constructed ∅))).
Proof.
  apply (previousTab_without_tabs
           (state_of (connectedCallback [] (constructed ∅)))).
  reflexivity.
Defined.

(** X24.  [deactivate()] called on the active panel removes its [active]
    attribute and tells the group nothing: [activeTab] and
    [activeTabIndex] still name the panel although no panel is active. *)
Theorem deactivate_leaves_stale_index (t : Tab) (g : Group) :
  isActive t (deactivate t g) = false /\
  activeTab (deactivate t g) = activeTab g /\
  activeTabIndex (deactivate t g) = activeTabIndex g.
Proof.
  split; [| split].
  - apply isActive_false. rewrite elem_of_deactivate. tauto.
  - unfold activeTab. apply activeTab_deactivate.
  - unfold activeTabIndex. by rewrite activeTab_deactivate, tabs_deactivate.
Qed.

Lemma tabs_activate (t : Tab) (g : Group) : tabs (activate t g) = tabs g.
Proof.
  unfold activate. destruct (isActive t g); cbn [negb]; [done|].
  unfold onTabActivated. cbn [tabs set_activeTab _activeTab set_active].
  destruct (_activeTab g); [| done].
  case_bool_decide; [by rewrite tabs_deactivate | done].
Qed.

Lemma activate_makes_active (t : Tab) (g : Group) :
  t ∈ active (activate t g).
Proof.
  unfold activate. destruct (isActive t g) eqn:Ht; cbn [negb].
  - by apply isActive_true.
  - unfold onTabActivated. cbn [active set_activeTab _activeTab set_active].
    destruct (_activeTab g) as [current|]; [| set_solver].
    case_bool_decide as Hne; [| cbn; set_solver].
    apply elem_of_deactivate. cbn. split; [set_solver | congruence].
Qed.

Lemma record_covers_selected (i : Z) (g0 : Group) :
  (0 <= i < tabCount g0)%Z -> record_covers (state_of (selectTab (Int i) g0)).
Proof.
  intros Hi. unfold selectTab, tabCount in *. cbn [js_lt js_ge].
  assert ((i <? 0)%Z = false) as -> by (apply Z.ltb_ge; lia).
  assert ((Z.of_nat (length (tabs g0)) <=? i)%Z = false) as ->
    by (apply Z.leb_gt; lia).
  cbn [orb].
  pose proof (record_covers_activateTab (js_index (tabs g0) (Int i)) g0) as H.
  by destruct (activateTab (js_index (tabs g0) (Int i)) g0).
Qed.

(** X25.  In a tab group whose listeners are registered, once a
    [selectTab] at a valid index has run, and after any further sequence
    of [selectTab], [nextTab], [previousTab], [activate] and [deactivate]
    calls, [activate()] on a panel of the group leaves that panel the only
    active one of the group and the one the group has on record. *)
Theorem activate_leaves_sole_active_panel (g0 : Group) (i : Z)
    (ops : list Op) (t : Tab) :
  (0 <= i < tabCount g0)%Z ->
  let g := run ops (state_of (selectTab (Int i) g0)) in
  t ∈ tabs g ->
  activeTab (activate t g) = Some t /\
  forall u, u ∈ tabs g -> (isActive u (activate t g) = true <-> u = t).
Proof.
  intros Hi g Ht.
  assert (record_covers (activate t g)) as Hcov.
  { by apply record_covers_activate, record_covers_tab_run, record_covers_selected. }
  pose proof (activate_makes_active t g) as Hact.
  assert (activeTab (activate t g) = Some t) as Hrec.
  { apply Hcov; [by rewrite tabs_activate | done]. }
  split; [done|]. intros u Hu. rewrite isActive_true. split.
  - intros Hua. apply Hcov in Hua; [| by rewrite tabs_activate].
    unfold activeTab in Hrec. congruence.
  - by intros ->.
Qed.

Lemma activate_leaves_sole_active_panel_witness :
  let g := run [NextTab] (state_of (selectTab (Int 0) (mkGroup [10; 11; 12] None ∅))) in
  activeTab (activate 12 g) = Some 12 /\
  forall u, u ∈ tabs g -> (isActive u (activate 12 g) = true <-> u = 12).
Proof.
  apply (activate_leaves_sole_active_panel (mkGroup [10; 11; 12] None ∅) 0 [NextTab] 12).
  - vm_compute. split; [discriminate | reflexivity].
  - vm_compute. set_solver.
Defined.

(** X29.  In a tab group whose panels are upgraded and whose listeners
    are registered, once a [selectTab] at a valid index has run, and
    after any further sequence of [selectTab], [nextTab], [previousTab],
    [activate] and [deactivate] calls, at most one panel of [this.tabs] is
    active. *)
Theorem selection_keeps_one_active_panel (g0 : Group) (i : Z) (ops : list Op) :
  (0 <= i < tabCount g0)%Z ->
  at_most_one_active (run ops (state_of (selectTab (Int i) g0))).
Proof.
  intros Hi.
  by apply record_covers_tab_exclusive, record_covers_tab_run, record_covers_selected.
Qed.

Lemma selection_keeps_one_active_panel_witness :
  at_most_one_active
    (run [Activate 12; PreviousTab; Deactivate 11; Activate 10]
       (state_of (selectTab (Int 1) (mkGroup [10; 11; 12] None {[10; 12]})))).
Proof.
  apply (selection_keeps_one_active_panel (mkGroup [10; 11; 12] None {[10; 12]}) 1).
  vm_compute. split; [discriminate | reflexivity].
Defined.

End TabsFurther.

Section TabLifecycleFacts.
Import TabGroup TabLifecycle.

(** With no panel on record and the panel upgraded, [activateTab] does
    what it does among upgraded panels. *)
Lemma activateTab_ready (t : Tab) (p : Page) :
  _activeTab (group p) = None -> t ∈ upgraded p ->
  activateTab (Some t) p
  = (Returned (),
     set_group (state_of (TabGroup.activateTab (Some t) (group p))) p).
Proof.
  intros Hnone Hready. unfold activateTab, TabGroup.activateTab.
  rewrite Hnone. cbv zeta. unfold activate, TabGroup.activate, isUpgraded.
  cbn [upgraded set_group group].
  rewrite bool_decide_eq_true_2 by done.
  repeat match goal with |- context [isActive t ?h] =>
    assert (isActive t h = true) as -> by (apply isActive_true; cbn; set_solver)
  end.
  reflexivity.
Qed.

(** X30.  Connecting a tab group whose first panel is upgraded already
    succeeds: [connectedCallback] returns, the listeners are registered,
    [activeTabIndex] is 0 and of the panels found the first and no other
    is active, whatever the markup carried.  Connecting a group without
    panels succeeds too and leaves [activeTabIndex] at -1. *)
Theorem initial_selection (markup ready : gset Tab) :
  (exists p,
     connectedCallback [] (constructed markup ready) = (Returned (), p) /\
     listening p = true /\ activeTabIndex (group p) = (-1)%Z) /\
  (forall (first : Tab) (rest : list Tab),
     first ∈ ready ->
     exists p,
       connectedCallback (first :: rest) (constructed markup ready)
         = (Returned (), p) /\
       listening p = true /\
       tabs (group p) = first :: rest /\
       activeTabIndex (group p) = 0%Z /\
       activeTab (group p) = Some first /\
       forall t, t ∈ first :: rest -> (isActive t (group p) = true <-> t = first)).
Proof.
  split; [eexists; by repeat split |].
  intros first rest Hready.
  unfold connectedCallback, initializeTabs, selectTab.
  cbn [constructed group set_group set_tabs tabs TabGroup.constructed
       length js_lt js_ge js_index].
  assert ((0 <? Z.of_nat (S (length rest)))%Z = true) as ->
    by (apply Z.ltb_lt; lia).
  assert ((Z.of_nat (S (length rest)) <=? 0)%Z = false) as ->
    by (apply Z.leb_gt; lia).
  cbn [Z.ltb Z.compare orb].
  change ((first :: rest) !! Z.to_nat 0) with (Some first).
  rewrite activateTab_ready by done.
  cbn [group set_group].
  destruct (activateTab_some first
              (set_tabs (first :: rest) (TabGroup.constructed markup)))
    as (g' & Heq & Htabs & Hrec & Hin & Hact).
  rewrite Heq. cbn [state_of tabs set_tabs] in *.
  eexists. split; [reflexivity |].
  cbn [listening set_listening group set_group].
  split; [done |]. split; [done |]. split; [| split; [done |]].
  - unfold activeTabIndex, indexOf. rewrite Hrec, Htabs. cbn.
    by rewrite bool_decide_eq_true_2.
  - intros t Ht. rewrite isActive_true. split.
    + intros Hta. destruct (Hact t Hta) as [|[_ Hout]]; done.
    + by intros ->.
Qed.

Lemma initial_selection_witness :
  exists p,
    connectedCallback [10; 11] (constructed {[11]} {[10; 11]}) = (Returned (), p) /\
    listening p = true /\
    tabs (group p) = [10; 11] /\
    activeTabIndex (group p) = 0%Z /\
    activeTab (group p) = Some 10 /\
    forall t, t ∈ [10; 11] -> (isActive t (group p) = true <-> t = 10).
Proof.
  destruct (initial_selection {[11]} {[10; 11]}) as [_ H].
  apply (H 10 [11]). set_solver.
Defined.

End TabLifecycleFacts.
